(** * Counter driver of the Time Tagger FPGA-link reference design

    A shallow embedding of [src/host/counter.py] (class [Counter]) and the
    properties of its channel look-up table builder and of its stream
    decoder.

    Modelling conventions.
    - Python integers are [Z]; lengths, indices and shapes are [nat].
    - A Python [dict] is an association list in insertion order (the order
      decides which exception is raised first); its keys are pairwise
      distinct, which theorems that need it state as [NoDup (map fst m)].
    - [result_list[i] = x] on a Python list is stdpp's [<[i:=x]>], guarded by
      the bounds check that raises [IndexError] in Python.
    - A NumPy float cell is a [scalar]: either [NaN] or an integer count (the
      decoder only ever stores masked 31-bit counts, which a float64 holds
      exactly).
    - An exception is an [outcome] that carries the state at the moment it
      is raised: assignments made before the [raise] stay visible.
    - The Wishbone bus is a log of the write transactions issued so far;
      what a burst read returns is an argument of the function that
      consumes it. *)

From stdpp Require Import base numbers list sorting.
From Stdlib Require Import ZArith Lia.

Set Warnings "-clear-no-such-hyp".

Open Scope Z_scope.

(** ** Exceptions and outcomes *)

Inductive exn : Type :=
  | ValueError
  | AssertionError
  | IndexError
  | ZeroDivisionError.

(** Result of a pure helper: the raised exception or the value. *)
Definition res (A : Type) : Type := exn + A.

Definition ret {A} (a : A) : res A := inr a.
Definition raise {A} (e : exn) : res A := inl e.
Definition bind {A B} (r : res A) (k : A → res B) : res B :=
  match r with
  | inl e => inl e
  | inr a => k a
  end.

Notation "'try' x ':=' r 'in' k" := (bind r (λ x, k))
  (at level 10, x name, r at level 100, k at level 200, only parsing).

(** [for x in xs: acc = body(acc, x)] where the body may raise. *)
Fixpoint for_each {A S} (body : S → A → res S) (acc : S) (xs : list A) : res S :=
  match xs with
  | [] => ret acc
  | x :: xs' => try acc' := body acc x in for_each body acc' xs'
  end.

(** ** Register map ([Counter.Reg]) *)

Module Reg.
Definition MODULE : Z := 0.
Definition FIFO_DEPTH : Z := 4.
Definition NUM_OF_CHANNELS : Z := 8.
Definition CHANNEL_LUT_DEPTH : Z := 12.
Definition SET_CHANNELS : Z := 16.
Definition WINDOW_SIZE_LSB : Z := 24.
Definition WINDOW_SIZE_MSB : Z := 28.
Definition CONFIG : Z := 32.
Definition READ_DATA : Z := 36.
Definition RESET_FPGA_MODULE : Z := 40.
Definition NUM_DESIRED_CHANNEL : Z := 44.
End Reg.

(** Write transactions on the Wishbone bus. *)
Inductive wb_op : Type :=
  | WbWrite (addr value : Z)
  | WbBurstWrite (addr : Z) (data : list Z).

(** ** Data *)

Inductive scalar : Type :=
  | NaN
  | Count (c : Z).

(** The value bound to a key of the channel dictionary: [isinstance(values,
    int)], [isinstance(values, list)], or anything else. *)
Inductive channel_value : Type :=
  | VInt (val : Z)
  | VList (vals : list Z)
  | VOther.

Abbreviation channel_dict := (list (Z * channel_value)) (only parsing).

(** The fields of a [Counter] object, and the bus log. *)
Record Counter : Type := mkCounter {
  base_address : Z;
  capture_size : nat;
  number_of_channels : Z;
  lut_channels_depth : nat;
  number_of_desired_channels : nat;
  data_array : list (list scalar);
  remaining_counters_array : list scalar;
  wb_log : list wb_op
}.

Inductive outcome (A : Type) : Type :=
  | Returned (st : Counter) (a : A)
  | Raised (e : exn) (st : Counter).
Arguments Returned {A} st a.
Arguments Raised {A} e st.

Definition state_after {A} (o : outcome A) : Counter :=
  match o with
  | Returned st _ => st
  | Raised _ st => st
  end.

(** ** Channel look-up table: [_assign_channel_indices] *)

Section lut.
Variable noc : Z.          (* self.number_of_channels *)
Variable depth : nat.      (* self.lut_channels_depth *)

(** [val & 0b111111], a list index. Python's [&] on a negative integer
    works on its two's complement, as [Z.land] does. *)
Definition slot_of (val : Z) : nat := Z.to_nat (Z.land val 63).

(** The nested [process_value(val)]: the subscript raises [IndexError]
    past the end of the list, the [assert] fails on an occupied slot. *)
Definition process_value (channel_key : Z) (result_list : list Z) (val : Z)
  : res (list Z) :=
  match result_list !! slot_of val with
  | None => raise IndexError
  | Some x =>
      if x =? noc then ret (<[slot_of val := channel_key]> result_list)
      else raise AssertionError
  end.

(** One iteration of [for channel_key, values in input_dict.items()]. *)
Definition process_item (result_list : list Z) (item : Z * channel_value)
  : res (list Z) :=
  let '(channel_key, values) := item in
  if (0 <=? channel_key) && (channel_key <? noc) then
    match values with
    | VInt val => process_value channel_key result_list val
    | VList vals => for_each (process_value channel_key) result_list vals
    | VOther => raise ValueError
    end
  else raise AssertionError.

Definition _assign_channel_indices (input_dict : channel_dict)
  : res (list Z * nat) :=
  let result_list := replicate depth noc in
  if forallb (λ item, (0 <=? fst item) && (fst item <? Z.of_nat (length input_dict)))
       input_dict
  then
    try result_list' := for_each process_item result_list input_dict in
    ret (result_list', length input_dict)
  else raise ValueError.
End lut.

(** ** Configuration: [reset_FPGA_module], [set_lut_channels],
    [get_lut_channels] *)

(** [np.full((rows, cols), np.nan)] *)
Definition np_full (rows cols : nat) : list (list scalar) :=
  replicate rows (replicate cols NaN).

Definition wb_write (addr value : Z) (st : Counter) : Counter :=
  mkCounter (base_address st) (capture_size st) (number_of_channels st)
    (lut_channels_depth st) (number_of_desired_channels st) (data_array st)
    (remaining_counters_array st) (wb_log st ++ [WbWrite addr value]).

Definition wb_burst_write (addr : Z) (data : list Z) (st : Counter) : Counter :=
  mkCounter (base_address st) (capture_size st) (number_of_channels st)
    (lut_channels_depth st) (number_of_desired_channels st) (data_array st)
    (remaining_counters_array st) (wb_log st ++ [WbBurstWrite addr data]).

Definition set_number_of_desired_channels (n : nat) (st : Counter) : Counter :=
  mkCounter (base_address st) (capture_size st) (number_of_channels st)
    (lut_channels_depth st) n (data_array st)
    (remaining_counters_array st) (wb_log st).

Definition set_data_array (m : list (list scalar)) (st : Counter) : Counter :=
  mkCounter (base_address st) (capture_size st) (number_of_channels st)
    (lut_channels_depth st) (number_of_desired_channels st) m
    (remaining_counters_array st) (wb_log st).

Definition set_remaining_counters_array (r : list scalar) (st : Counter) : Counter :=
  mkCounter (base_address st) (capture_size st) (number_of_channels st)
    (lut_channels_depth st) (number_of_desired_channels st) (data_array st)
    r (wb_log st).

Definition reset_FPGA_module (st : Counter) : Counter :=
  let st := wb_write (base_address st + Reg.RESET_FPGA_MODULE) 1 st in
  let st := set_data_array
              (np_full (number_of_desired_channels st) (capture_size st)) st in
  set_remaining_counters_array [] st.

(** [{i: i + 1 for i in range(self.number_of_channels)}] *)
Definition default_channels (noc : Z) : channel_dict :=
  map (λ i : nat, (Z.of_nat i, VInt (Z.of_nat i + 1))) (seq 0 (Z.to_nat noc)).

Definition set_lut_channels (channels : option channel_dict) (st : Counter)
  : outcome unit :=
  let channels :=
    match channels with
    | None => default_channels (number_of_channels st)
    | Some channels => channels
    end in
  match _assign_channel_indices (number_of_channels st) (lut_channels_depth st)
          channels with
  | inl e => Raised e st
  | inr (ch, n) =>
      let st := set_number_of_desired_channels n st in
      let st := reset_FPGA_module st in
      let st := wb_write (base_address st + Reg.NUM_DESIRED_CHANNEL)
                  (Z.of_nat (number_of_desired_channels st)) st in
      let st := wb_burst_write (base_address st + Reg.SET_CHANNELS) ch st in
      Returned st tt
  end.

(** [result_dict.setdefault(value, []).append(index)] on a dictionary kept
    in insertion order. *)
Fixpoint setdefault_append (result_dict : list (Z * list nat)) (value : Z)
    (index : nat) : list (Z * list nat) :=
  match result_dict with
  | [] => [(value, [index])]
  | (k, l) :: rest =>
      if k =? value then (k, l ++ [index]) :: rest
      else (k, l) :: setdefault_append rest value index
  end.

(** The loop [for index, value in enumerate(input_list)], [index] counting
    up from its first argument. *)
Fixpoint group_slots (noc : Z) (index : nat) (input_list : list Z)
    (result_dict : list (Z * list nat)) : list (Z * list nat) :=
  match input_list with
  | [] => result_dict
  | value :: rest =>
      group_slots noc (S index) rest
        (if value <? noc then setdefault_append result_dict value index
         else result_dict)
  end.

(** [sorted(result_dict.items())]: the keys of a dictionary are distinct, so
    the order of the pairs is the order of their keys. *)
Fixpoint insert_item (item : Z * list nat) (items : list (Z * list nat))
  : list (Z * list nat) :=
  match items with
  | [] => [item]
  | item' :: rest =>
      if fst item <=? fst item' then item :: items
      else item' :: insert_item item rest
  end.

Definition sorted_items (items : list (Z * list nat)) : list (Z * list nat) :=
  foldr insert_item [] items.

Definition list_to_dict (noc : Z) (input_list : list Z) : list (Z * list nat) :=
  sorted_items (group_slots noc 0 input_list []).

(** [get_lut_channels], given the words that [wb.burst_read] returns for the
    [SET_CHANNELS] window. *)
Definition get_lut_channels (st : Counter) (read_list : list Z)
  : list (Z * list nat) :=
  list_to_dict (number_of_channels st) read_list.

(** ** Stream decoder: [read_data] *)

(** The loop over the non-zero words: a word without bit 31 is a run of
    missing samples, a word with bit 31 carries a 31-bit count. *)
Definition decode_word (concat_data : list scalar) (val : Z) : list scalar :=
  if Z.land val 0x80000000 =? 0 then
    concat_data ++ replicate (Z.to_nat val) NaN
  else
    concat_data ++ [Count (Z.land val 0x7FFFFFFF)].

Definition expand_burst (remaining : list scalar) (burst_read_data : list Z)
  : list scalar :=
  let burst_read_data := filter (λ w, w ≠ 0) burst_read_data in
  fold_left decode_word burst_read_data remaining.

(** [a[-m:]]: Python reads [-0] as [0], so [a[-0:]] is the whole of [a]. *)
Definition slice_last (m : nat) (a : list scalar) : list scalar :=
  match m with
  | O => a
  | S _ => drop (length a - m) a
  end.

(** [np.reshape(a, (rows, cols))] *)
Definition np_reshape (a : list scalar) (rows cols : nat)
  : res (list (list scalar)) :=
  if decide (length a = (rows * cols)%nat) then
    ret (map (λ r, take cols (drop (r * cols) a)) (seq 0 rows))
  else raise ValueError.

(** [m.T] for [m] of shape [(rows, cols)] *)
Definition np_transpose (cols : nat) (m : list (list scalar))
  : list (list scalar) :=
  map (λ c, map (λ row, nth c row NaN) m) (seq 0 cols).

(** [np.concatenate((a, b), axis=1)] *)
Definition np_concatenate_axis1 (a b : list (list scalar))
  : res (list (list scalar)) :=
  if decide (length a = length b) then ret (zip_with app a b)
  else raise ValueError.

(** Lines 164 to 181 of [read_data], from the expanded [concat_data] on. *)
Definition store_rows (concat_data : list scalar) (st : Counter)
  : outcome (list (list scalar)) :=
  let K := number_of_desired_channels st in
  match K with
  | O => Raised ZeroDivisionError st
  | S _ =>
      let added_arrays_len := (length concat_data / K)%nat in
      let added_data_len := (added_arrays_len * K)%nat in
      let added_data := take added_data_len concat_data in
      let st := set_remaining_counters_array (drop added_data_len concat_data) st in
      let '(added_arrays_len, added_data) :=
        if decide (capture_size st < added_arrays_len)%nat then
          (capture_size st, slice_last (capture_size st * K) added_data)
        else (added_arrays_len, added_data) in
      match
        try rows := np_reshape added_data added_arrays_len K in
        np_concatenate_axis1 (map (drop added_arrays_len) (data_array st))
          (np_transpose K rows)
      with
      | inl e => Raised e st
      | inr m => Returned (set_data_array m st) m
      end
  end.

(** [read_data], given the content of [burst_read_data] once the chunked
    burst reads of lines 142 to 149 have filled it. *)
Definition read_data (burst_read_data : list Z) (st : Counter)
  : outcome (list (list scalar)) :=
  store_rows (expand_burst (remaining_counters_array st) burst_read_data) st.

(** A counter as [__init__] and [set_lut_channels] leave it, with [K]
    desired channels. *)
Definition fresh (cap : nat) (noc : Z) (depth K : nat) : Counter :=
  mkCounter 0x80006500 cap noc depth K (np_full K cap) [] [].

(** [__init__], given the words read from the [MODULE], [NUM_OF_CHANNELS]
    and [CHANNEL_LUT_DEPTH] registers: the module tag must be the bytes of
    ['cntr'], big-endian; one channel is desired until [set_lut_channels]
    says otherwise. *)
Definition init (base : Z) (cap : nat) (module_name noc : Z) (depth : nat)
  : res Counter :=
  if module_name =? 0x636e7472 then
    ret (reset_FPGA_module (mkCounter base cap noc depth 1 [] [] []))
  else raise AssertionError.

(** [start_measurement] *)
Definition start_measurement (st : Counter) : Counter :=
  wb_write (base_address st + Reg.CONFIG) 1 st.

(** [set_window_size], its argument taken after [int(window_size)]. *)
Definition set_window_size (window_size : Z) (st : Counter) : Counter :=
  let lsb_mask := 0xFFFFFFFF in
  let lsb := Z.land window_size lsb_mask in
  let msb := Z.land (Z.shiftr window_size 32) lsb_mask in
  let st := wb_write (base_address st + Reg.WINDOW_SIZE_LSB) lsb st in
  wb_write (base_address st + Reg.WINDOW_SIZE_MSB) msb st.

(** [get_window_size], given the words that the two [wb.read] return. *)
Definition get_window_size (lsb msb : Z) : Z := lsb + Z.shiftl msb 32.

(** The number of words of a [read_data] call, as [__init__] derives it
    from the FIFO depth and the longest burst of the bus. *)
Definition read_length_of (fifo_depth max_burst : nat) : res nat :=
  if decide (fifo_depth ≤ max_burst)%nat then ret fifo_depth
  else
    match max_burst with
    | O => raise ZeroDivisionError
    | S _ => ret (fifo_depth / max_burst * max_burst)%nat
    end.

(** [range(0, stop, step)]: a zero step is refused, a positive one gives
    the multiples of [step] below [stop]. *)
Definition py_range (stop step : nat) : res (list nat) :=
  match step with
  | O => raise ValueError
  | S _ => ret ((λ i, i * step)%nat <$> seq 0 ((stop + step - 1) / step))
  end.

(** The pairs [(updated_bins, chunk_size)] of the loop of [read_data]. *)
Definition chunks (read_length max_burst : nat) : res (list (nat * nat)) :=
  try starts := py_range read_length max_burst in
  ret ((λ updated_bins,
          (updated_bins, max_burst `min` (read_length - updated_bins))%nat)
       <$> starts).

(** [buf[start:start + n] = data] on a NumPy vector: the slice is cut at
    the end of the vector, and [data] must have its length or be a single
    word, which is then repeated. *)
Definition np_assign_slice (buf : list Z) (start n : nat) (data : list Z)
  : res (list Z) :=
  let stop := ((start + n) `min` length buf)%nat in
  let start := (start `min` length buf)%nat in
  let n := (stop - start)%nat in
  if decide (length data = n) then
    ret (take start buf ++ data ++ drop stop buf)
  else
    match data with
    | [x] => ret (take start buf ++ replicate n x ++ drop stop buf)
    | _ => raise ValueError
    end.

(** Lines 142 to 149 of [read_data]: the buffer of zeros and the burst
    reads that fill it. [transport call count] is what the [call]-th
    [wb.burst_read] of the loop returns when asked for [count] words. *)
Definition gather (transport : nat → nat → list Z)
    (read_length max_burst : nat) : res (list Z) :=
  try plan := chunks read_length max_burst in
  for_each
    (λ burst_read_data (step : nat * (nat * nat)),
       let '(call, (updated_bins, chunk_size)) := step in
       np_assign_slice burst_read_data updated_bins chunk_size
         (transport call chunk_size))
    (replicate read_length 0)
    (zip (seq 0 (length plan)) plan).

(** [read_data] from the bus on. *)
Definition read_data_bus (transport : nat → nat → list Z)
    (read_length max_burst : nat) (st : Counter)
  : outcome (list (list scalar)) :=
  match gather transport read_length max_burst with
  | inl e => Raised e st
  | inr burst_read_data => read_data burst_read_data st
  end.

(** The states that a counter goes through, whatever its methods are called
    with and whether they return or raise. *)
Inductive reachable : Counter → Prop :=
  | reach_init base cap module_name noc depth st :
      init base cap module_name noc depth = inr st → reachable st
  | reach_reset st :
      reachable st → reachable (reset_FPGA_module st)
  | reach_start st :
      reachable st → reachable (start_measurement st)
  | reach_window window_size st :
      reachable st → reachable (set_window_size window_size st)
  | reach_set_lut channels st :
      reachable st → reachable (state_after (set_lut_channels channels st))
  | reach_read burst st :
      Forall (λ w, 0 ≤ w < 2 ^ 32) burst →
      reachable st → reachable (state_after (read_data burst st)).

(** ** The decode expansion as the specification words it

    Discard the zero words; then, starting from the pending tail and keeping
    the order, a word with bit 31 set contributes one scalar, its low 31
    bits, and a word with bit 31 clear contributes as many missing markers
    as its value. *)

Definition is_uint32 (w : Z) : Prop := 0 ≤ w < 2 ^ 32.

Definition expand_word (w : Z) : list scalar :=
  if Z.testbit w 31 then [Count (w mod 2 ^ 31)]
  else replicate (Z.to_nat w) NaN.

Definition reference_expansion (pendingTail : list scalar) (rawBurst : list Z)
  : list scalar :=
  pendingTail ++ flat_map expand_word (filter (λ w, w ≠ 0) rawBurst).

(** ** State invariants *)

(** The rolling matrix has one row per desired channel and [capture_size]
    columns. *)
Definition has_shape (st : Counter) : Prop :=
  length (data_array st) = number_of_desired_channels st
  ∧ Forall (λ row, length row = capture_size st) (data_array st).

(** The source's [added_arrays_len] before it is clamped: the number of rows
    that a call completes. *)
Definition completed_rows (burst_read_data : list Z) (st : Counter) : nat :=
  (length (expand_burst (remaining_counters_array st) burst_read_data)
   / number_of_desired_channels st)%nat.

(** ** Vocabulary of the statements *)

(** The rows of [np.reshape(a, (rows, K))], written out. *)
Definition rows_of (a : list scalar) (rows K : nat) : list (list scalar) :=
  map (λ r, take K (drop (r * K) a)) (seq 0 rows).

(** The bursts of the carry-over scenario: four valid-tagged words, then two
    more. *)
Definition carry_burst1 : list Z :=
  [0x80000001; 0x80000002; 0x80000003; 0x80000004].
Definition carry_burst2 : list Z := [0x80000005; 0x80000006].

(** The physical values bound to a key, in the order [process_value] sees
    them. *)
Definition values_of (values : channel_value) : list Z :=
  match values with
  | VInt val => [val]
  | VList vals => vals
  | VOther => []
  end.

(** The calls [process_value(val)] of a build, each with the
    [channel_key] of the iteration that makes it. *)
Definition writes (input_dict : channel_dict) : list (Z * Z) :=
  input_dict ≫= λ item, (λ val, (item.1, val)) <$> values_of item.2.

(** The slot indices of a build, one per call of [process_value]. *)
Definition slots (input_dict : channel_dict) : list nat :=
  (λ w, slot_of w.2) <$> writes input_dict.

(** One call of [process_value], as a step on the table. *)
Definition write_one (noc : Z) (rl : list Z) (w : Z * Z) : res (list Z) :=
  process_value noc w.1 rl w.2.

(** The checks that [process_item] makes on a dictionary item. *)
Definition item_ok (noc : Z) (item : Z * channel_value) : Prop :=
  0 ≤ item.1 < noc ∧ item.2 ≠ VOther.

(** When the build accepts a dictionary: the keys are in
    [[0, len(input_dict))] and in [[0, number_of_channels)], every value is
    an [int] or a [list], and the slots are inside the table and pairwise
    distinct. *)
Record acceptable (noc : Z) (depth : nat) (m : channel_dict) : Prop := {
  acc_dense : Forall (λ item, 0 ≤ item.1 < Z.of_nat (length m)) m;
  acc_items : Forall (item_ok noc) m;
  acc_range : Forall (λ i, (i < depth)%nat) (slots m);
  acc_distinct : NoDup (slots m)
}.

(** The counter after [set_lut_channels] has built [lut] for [n] desired
    channels: the state is reset and the bus has seen the reset strobe, the
    channel count and the table. *)
Definition configured (st : Counter) (lut : list Z) (n : nat) : Counter :=
  mkCounter (base_address st) (capture_size st) (number_of_channels st)
    (lut_channels_depth st) n (np_full n (capture_size st)) []
    (wb_log st
     ++ [WbWrite (base_address st + Reg.RESET_FPGA_MODULE) 1;
         WbWrite (base_address st + Reg.NUM_DESIRED_CHANNEL) (Z.of_nat n);
         WbBurstWrite (base_address st + Reg.SET_CHANNELS) lut]).

(** The indices, counted from [index], at which [input_list] holds [k]. *)
Fixpoint positions (k : Z) (index : nat) (input_list : list Z) : list nat :=
  match input_list with
  | [] => []
  | value :: rest =>
      if decide (value = k) then index :: positions k (S index) rest
      else positions k (S index) rest
  end.

(** [result_dict.get(k)] *)
Fixpoint dict_get (result_dict : list (Z * list nat)) (k : Z)
  : option (list nat) :=
  match result_dict with
  | [] => None
  | (k', l) :: rest => if decide (k' = k) then Some l else dict_get rest k
  end.

(** The scalars that the loop adds under key [k]. *)
Definition grouped (noc : Z) (k : Z) (index : nat) (l : list Z) : list nat :=
  if decide (k < noc) then positions k index l else [].

(** What a register that keeps the word written to it reads back: the
    value of the latest single write to [addr], if any. *)
Fixpoint last_write (addr : Z) (log : list wb_op) : option Z :=
  match log with
  | [] => None
  | op :: rest =>
      match last_write addr rest with
      | Some v => Some v
      | None =>
          match op with
          | WbWrite a v => if a =? addr then Some v else None
          | WbBurstWrite _ _ => None
          end
      end
  end.

(** The last [n] elements of a list, all of it when it is shorter. *)
Definition last_n {A} (n : nat) (l : list A) : list A :=
  drop (length l - n) l.

(** The samples of channel [c] among the first [rows] rows of a sequence of
    scalars interleaved over [K] channels. *)
Definition channel_column (K c rows : nat) (ws : list scalar) : list scalar :=
  (λ r, nth (r * K + c) ws NaN) <$> seq 0 rows.

(** A dictionary with every physical value reduced modulo 64. *)
Definition reduce_value (values : channel_value) : channel_value :=
  match values with
  | VInt val => VInt (val mod 64)
  | VList vals => VList ((λ val, val mod 64) <$> vals)
  | VOther => VOther
  end.

Definition reduce_values (input_dict : channel_dict) : channel_dict :=
  (λ item, (item.1, reduce_value item.2)) <$> input_dict.

(** A plan of chunks that tiles a buffer from [off] on: each chunk starts
    where the one before it ends. *)
Fixpoint tiles (off : nat) (plan : list (nat * nat)) : Prop :=
  match plan with
  | [] => True
  | (updated_bins, chunk_size) :: rest =>
      updated_bins = off ∧ tiles (off + chunk_size) rest
  end.

(** The replies of the bus to the burst reads of a plan, the first of them
    being the [call]-th read. *)
Definition replies (transport : nat → nat → list Z) (call : nat)
    (plan : list (nat * nat)) : list (list Z) :=
  (λ step : nat * (nat * nat), transport step.1 step.2.2)
  <$> zip (seq call (length plan)) plan.

(** What a chunk of [chunk_size] words holds once a reply is assigned to
    it: the reply, or its single word repeated. *)
Definition stored (chunk_size : nat) (data : list Z) : list Z :=
  if decide (length data = chunk_size) then data
  else replicate chunk_size (hd 0 data).

(** The body of the loop of [gather]. *)
Definition fill (transport : nat → nat → list Z) (burst_read_data : list Z)
    (step : nat * (nat * nat)) : res (list Z) :=
  np_assign_slice burst_read_data step.2.1 step.2.2
    (transport step.1 step.2.2).

(** The buffer that the replies of the bus leave behind. *)
Definition gathered (transport : nat → nat → list Z) (call : nat)
    (plan : list (nat * nat)) : list Z :=
  concat ((λ step : nat * (nat * nat),
             stored step.2.2 (transport step.1 step.2.2))
          <$> zip (seq call (length plan)) plan).

(** ** The definitions at work *)

Example assign_example :
  _assign_channel_indices 8 64 [(0, VInt 1); (1, VList [2; 3]); (2, VList [-4; 4])]
  = inr (<[1%nat:=0]> (<[2%nat:=1]> (<[3%nat:=1]> (<[60%nat:=2]> (<[4%nat:=2]>
           (replicate 64 8))))), 3%nat).
Proof. reflexivity. Qed.

Example get_lut_example :
  list_to_dict 8 [8; 0; 1; 1; 2; 8; 0]
  = [(0, [1; 6]%nat); (1, [2; 3]%nat); (2, [4]%nat)].
Proof. reflexivity. Qed.

Example demux_example :
  read_data [0x80000001; 0x80000002; 0x80000003; 0x80000004] (fresh 3 8 64 2)
  = Returned
      (set_data_array [[NaN; Count 1; Count 3]; [NaN; Count 2; Count 4]]
         (fresh 3 8 64 2))
      [[NaN; Count 1; Count 3]; [NaN; Count 2; Count 4]].
Proof. reflexivity. Qed.

(** * Properties of the stream decoder *)

Section decoder_facts.
Implicit Types (st : Counter) (burst : list Z) (ws : list scalar).

Lemma land_bit31 (w : Z) :
  Z.land w 0x80000000 = if Z.testbit w 31 then 0x80000000 else 0.
Proof.
  change 0x80000000 with (2 ^ 31).
  apply Z.bits_inj'; intros n Hn.
  rewrite Z.land_spec, Z.pow2_bits_eqb by lia.
  destruct (Z.eqb_spec 31 n) as [<-|Hne].
  - destruct (Z.testbit w 31) eqn:E; [|by rewrite Z.bits_0].
    by rewrite Z.pow2_bits_eqb.
  - rewrite andb_false_r.
    destruct (Z.testbit w 31); [|by rewrite Z.bits_0].
    rewrite Z.pow2_bits_eqb by lia. symmetry. by apply Z.eqb_neq.
Qed.

Lemma decode_word_expand ws (w : Z) :
  decode_word ws w = ws ++ expand_word w.
Proof.
  unfold decode_word, expand_word. rewrite land_bit31.
  destruct (Z.testbit w 31); simpl; [|done].
  change 0x7FFFFFFF with (Z.ones 31). by rewrite Z.land_ones.
Qed.

Lemma fold_decode_word (l : list Z) ws :
  fold_left decode_word l ws = ws ++ flat_map expand_word l.
Proof.
  revert ws. induction l as [|w l IH]; intros ws; simpl.
  - by rewrite app_nil_r.
  - by rewrite IH, decode_word_expand, <- app_assoc.
Qed.

Lemma expand_burst_reference ws burst :
  expand_burst ws burst = reference_expansion ws burst.
Proof. apply fold_decode_word. Qed.

Lemma filter_zero_words burst :
  Forall (λ w, w = 0) burst → filter (λ w, w ≠ 0) burst = [].
Proof.
  induction 1 as [|w l Hw _ IH]; [done|].
  rewrite filter_cons. by destruct (decide (w ≠ 0)).
Qed.

Lemma expand_burst_dummy ws burst :
  Forall (λ w, w = 0) burst → expand_burst ws burst = ws.
Proof. intros H. unfold expand_burst. by rewrite filter_zero_words. Qed.

(** Shapes of the NumPy helpers. *)

Lemma np_transpose_length (K : nat) (m : list (list scalar)) :
  length (np_transpose K m) = K.
Proof. unfold np_transpose. by rewrite length_map, length_seq. Qed.

Lemma np_transpose_rows (K : nat) (m : list (list scalar)) :
  Forall (λ col, length col = length m) (np_transpose K m).
Proof.
  unfold np_transpose. apply Forall_forall. intros col Hin.
  apply list_elem_of_In, in_map_iff in Hin as (c & <- & _).
  by rewrite length_map.
Qed.

Lemma np_reshape_length (a : list scalar) (rows cols : nat) m :
  np_reshape a rows cols = inr m → length m = rows.
Proof.
  unfold np_reshape. case_decide; [|done].
  intros [= <-]. by rewrite length_map, length_seq.
Qed.

Lemma zip_with_app_length (a b : list (list scalar)) (n k : nat) :
  length a = length b →
  Forall (λ row, length row = n) a →
  Forall (λ col, length col = k) b →
  Forall (λ row, length row = (n + k)%nat) (zip_with app a b).
Proof.
  revert b. induction a as [|x a IH]; intros [|y b] Hlen Ha Hb; simpl in *;
    try done.
  apply Forall_cons in Ha as [Hx Ha]. apply Forall_cons in Hb as [Hy Hb].
  constructor.
  - rewrite length_app. lia.
  - apply IH; auto.
Qed.

Lemma zip_with_app_nil (a : list (list scalar)) (K : nat) :
  length a = K → zip_with app (map (drop 0) a) (np_transpose K []) = a.
Proof.
  unfold np_transpose. simpl. intros <-.
  replace (map (drop 0) a) with a
    by (induction a; simpl; [done|by f_equal]).
  generalize 0%nat. induction a as [|x a IH]; intros s; simpl; [done|].
  by rewrite app_nil_r, IH.
Qed.

(** A slide by the whole width replaces the matrix. *)
Lemma zip_with_app_drop_all (d new : list (list scalar)) (cap : nat) :
  Forall (λ row, length row = cap) d → length new = length d →
  zip_with app (map (drop cap) d) new = new.
Proof.
  revert new. induction d as [|row d IH]; intros [|c cs] Hr Hl; try done.
  apply Forall_cons in Hr as [Hrow Hr]. simpl.
  rewrite drop_ge by lia. simpl. f_equal. apply IH; [done|by inversion Hl].
Qed.
End decoder_facts.

Section store_rows_facts.
Implicit Types (st : Counter) (ws : list scalar).

Lemma div_mul_le (n K : nat) : (n / K * K ≤ n)%nat.
Proof. rewrite Nat.mul_comm. apply Nat.Div0.mul_div_le. Qed.

Lemma length_consumed ws (K : nat) :
  length (take (length ws / K * K) ws) = (length ws / K * K)%nat.
Proof. rewrite length_take. pose proof (div_mul_le (length ws) K). lia. Qed.

Lemma length_pending ws (K : nat) :
  (0 < K)%nat → (length (drop (length ws / K * K) ws) < K)%nat.
Proof.
  intros HK. rewrite length_drop.
  pose proof (Nat.div_mod_eq (length ws) K) as Hdm.
  pose proof (Nat.mod_upper_bound (length ws) K ltac:(lia)). lia.
Qed.

(** Rows are consumed whatever happens later in the call. *)
Lemma store_rows_remaining ws st :
  (0 < number_of_desired_channels st)%nat →
  remaining_counters_array (state_after (store_rows ws st))
  = drop (length ws / number_of_desired_channels st
          * number_of_desired_channels st) ws.
Proof.
  intros HK. unfold store_rows.
  destruct (number_of_desired_channels st) as [|k] eqn:EK; [lia|].
  simpl capture_size. case_decide.
  - destruct (bind _ _); reflexivity.
  - destruct (bind _ _); reflexivity.
Qed.

(** No overflow: every consumed scalar enters the matrix. *)
Lemma store_rows_fits ws st :
  let K := number_of_desired_channels st in
  let rows := (length ws / K)%nat in
  let m := zip_with app (map (drop rows) (data_array st))
             (np_transpose K (rows_of (take (rows * K) ws) rows K)) in
  (0 < K)%nat → length (data_array st) = K → (rows ≤ capture_size st)%nat →
  store_rows ws st
  = Returned (set_data_array m
                (set_remaining_counters_array (drop (rows * K) ws) st)) m.
Proof.
  intros K rows m HK Hlen Hfit. subst m rows K. unfold store_rows.
  destruct (number_of_desired_channels st) as [|k] eqn:EK; [lia|].
  simpl capture_size. rewrite decide_False by lia.
  unfold np_reshape. rewrite decide_True by apply length_consumed.
  unfold bind, ret, np_concatenate_axis1.
  rewrite decide_True; [done|].
  by rewrite length_map, np_transpose_length.
Qed.

Lemma slice_last_consumed ws (K cap : nat) :
  (0 < cap)%nat → (0 < K)%nat → (cap < length ws / K)%nat →
  slice_last (cap * K) (take (length ws / K * K) ws)
  = drop ((length ws / K - cap) * K) (take (length ws / K * K) ws).
Proof.
  intros Hcap HK Hover. unfold slice_last.
  destruct (cap * K)%nat eqn:E; [nia|]. rewrite <- E.
  rewrite length_consumed. f_equal. nia.
Qed.

(** Overflow with a matrix that has columns: only the last [capture_size]
    rows of the call enter the matrix, and they fill it. *)
Lemma store_rows_overflow ws st :
  let K := number_of_desired_channels st in
  let rows := (length ws / K)%nat in
  let cap := capture_size st in
  let kept := drop ((rows - cap) * K) (take (rows * K) ws) in
  let m := zip_with app (map (drop cap) (data_array st))
             (np_transpose K (rows_of kept cap K)) in
  (0 < K)%nat → length (data_array st) = K → (0 < cap < rows)%nat →
  store_rows ws st
  = Returned (set_data_array m
                (set_remaining_counters_array (drop (rows * K) ws) st)) m.
Proof.
  intros K rows cap kept m HK Hlen Hover. subst m kept cap rows K.
  unfold store_rows.
  destruct (number_of_desired_channels st) as [|k] eqn:EK; [lia|].
  simpl capture_size. rewrite decide_True by lia.
  rewrite slice_last_consumed by lia.
  unfold np_reshape. rewrite decide_True.
  2:{ rewrite length_drop, length_consumed. nia. }
  unfold bind, ret, np_concatenate_axis1.
  rewrite decide_True; [done|].
  by rewrite length_map, np_transpose_length.
Qed.

(** The matrix keeps its shape, whether the call returns or raises. *)
Lemma store_rows_shape ws st :
  has_shape st → has_shape (state_after (store_rows ws st)).
Proof.
  intros [Hlen Hrows]. unfold store_rows.
  destruct (number_of_desired_channels st) as [|k] eqn:EK.
  { split; simpl; [congruence|done]. }
  simpl capture_size.
  set (rows := (length ws / S k)%nat).
  assert (∀ n a m,
    (n ≤ capture_size st)%nat →
    has_shape (state_after
      match (try rows := np_reshape a n (S k) in
             np_concatenate_axis1 (map (drop n) (data_array st))
               (np_transpose (S k) rows)) with
      | inl e => Raised e (set_remaining_counters_array m st)
      | inr m' => Returned (set_data_array m' (set_remaining_counters_array m st)) m'
      end)) as Hgen.
  { intros n a m Hn. destruct (np_reshape a n (S k)) as [e|r] eqn:Er; simpl.
    { split; simpl; [congruence|done]. }
    unfold np_concatenate_axis1. case_decide as Hl; simpl.
    2:{ split; simpl; [congruence|done]. }
    split; simpl.
    - rewrite length_zip_with, length_map, np_transpose_length. lia.
    - replace (capture_size st) with (capture_size st - n + n)%nat by lia.
      apply zip_with_app_length.
      + by rewrite length_map, np_transpose_length in *.
      + apply Forall_forall. intros row Hin.
        apply list_elem_of_In, in_map_iff in Hin as (row' & <- & Hin').
        rewrite length_drop. f_equal.
        rewrite Forall_forall in Hrows. apply Hrows. by apply list_elem_of_In.
      + erewrite <- (np_reshape_length a n (S k) r) by done.
        apply np_transpose_rows. }
  case_decide; apply Hgen; lia.
Qed.
End store_rows_facts.

Section read_data_facts.
Implicit Types (st : Counter) (burst : list Z) (ws : list scalar).

(** The three ways a call can end. *)
Lemma store_rows_outcome ws st :
  store_rows ws st = Raised ZeroDivisionError st
  ∨ ∃ r, (∃ e, store_rows ws st
               = Raised e (set_remaining_counters_array r st))
         ∨ (∃ m, store_rows ws st
                 = Returned (set_data_array m
                               (set_remaining_counters_array r st)) m).
Proof.
  unfold store_rows.
  destruct (number_of_desired_channels st) as [|k]; [by left|].
  right. eexists. simpl capture_size.
  case_decide; destruct (bind _ _); eauto.
Qed.

(** [read_data] touches the pending tail and the matrix only. *)
Lemma store_rows_frame ws st :
  let st' := state_after (store_rows ws st) in
  number_of_desired_channels st' = number_of_desired_channels st
  ∧ capture_size st' = capture_size st
  ∧ wb_log st' = wb_log st.
Proof.
  destruct (store_rows_outcome ws st) as [->|(r & [[e ->]|[m ->]])]; done.
Qed.

(** A matrix without columns cannot take the rows of an overflowing call:
    [added_data[-0:]] keeps every scalar and [np.reshape] refuses them. *)
Lemma store_rows_zero_capture ws st :
  let K := number_of_desired_channels st in
  (0 < K)%nat → capture_size st = 0%nat → (0 < length ws / K)%nat →
  store_rows ws st
  = Raised ValueError
      (set_remaining_counters_array (drop (length ws / K * K) ws) st).
Proof.
  intros K HK Hcap Hrows. subst K. unfold store_rows.
  destruct (number_of_desired_channels st) as [|k] eqn:EK; [lia|].
  simpl capture_size. rewrite Hcap, decide_True by lia.
  change (0 * S k)%nat with 0%nat.
  unfold slice_last, np_reshape. rewrite decide_False; [done|].
  rewrite length_consumed. nia.
Qed.

Lemma testbit31_nonzero (w : Z) : Z.testbit w 31 = true → w ≠ 0.
Proof. intros H ->. by rewrite Z.bits_0 in H. Qed.

(** A burst of valid-tagged words appends one count per word. *)
Lemma expand_burst_valid ws burst :
  Forall (λ w, Z.testbit w 31 = true) burst →
  expand_burst ws burst = ws ++ map (λ w, Count (w mod 2 ^ 31)) burst.
Proof.
  intros H. rewrite expand_burst_reference. unfold reference_expansion.
  f_equal. induction H as [|w l Hw _ IH]; [done|].
  rewrite filter_cons, decide_True by by apply testbit31_nonzero.
  simpl. unfold expand_word at 1. rewrite Hw. simpl. by f_equal.
Qed.
End read_data_facts.

Section reachable_facts.
Implicit Types (st : Counter).

Lemma np_full_shape (K cap : nat) :
  length (np_full K cap) = K
  ∧ Forall (λ row, length row = cap) (np_full K cap).
Proof.
  unfold np_full. split; [apply length_replicate|].
  apply Forall_replicate, length_replicate.
Qed.

Lemma reset_has_shape st : has_shape (reset_FPGA_module st).
Proof. apply np_full_shape. Qed.

Lemma set_lut_channels_shape channels st :
  has_shape st → has_shape (state_after (set_lut_channels channels st)).
Proof.
  intros Hst. unfold set_lut_channels.
  destruct (_assign_channel_indices _ _ _) as [e|[ch n]]; [done|].
  apply np_full_shape.
Qed.

(** The shape of the matrix is an invariant of the counter. *)
Lemma reachable_has_shape st : reachable st → has_shape st.
Proof.
  induction 1 as [base cap name noc depth st Hinit|st _ _|st _ IH|w st _ IH
                 |channels st _ IH|burst st _ _ IH].
  - unfold init in Hinit. destruct (name =? _); [|done].
    injection Hinit as <-. apply reset_has_shape.
  - apply reset_has_shape.
  - exact IH.
  - exact IH.
  - by apply set_lut_channels_shape.
  - by apply store_rows_shape.
Qed.

(** So is the bound on the pending tail, while a channel is desired. *)
Lemma reachable_pending st :
  reachable st →
  (0 < number_of_desired_channels st)%nat →
  (length (remaining_counters_array st) < number_of_desired_channels st)%nat.
Proof.
  induction 1 as [base cap name noc depth st Hinit|st _ _|st _ IH|w st _ IH
                 |channels st _ IH|burst st _ _ IH]; intros HK.
  - unfold init in Hinit. destruct (name =? _); [|done].
    injection Hinit as <-. simpl. lia.
  - done.
  - by apply IH.
  - by apply IH.
  - unfold set_lut_channels in *.
    destruct (_assign_channel_indices _ _ _) as [e|[ch n]]; [by apply IH|].
    done.
  - unfold read_data in *.
    destruct (store_rows_frame
                (expand_burst (remaining_counters_array st) burst) st)
      as (HK' & _ & _).
    rewrite HK' in *. rewrite store_rows_remaining by done.
    by apply length_pending.
Qed.
End reachable_facts.

(** * Claims about the stream decoder *)

(** C2. The decode expansion of [read_data] is the reference expansion:
    zero words are discarded and, in order and after the carried pending
    tail, a word with bit 31 set yields its low 31 bits and a word with bit
    31 clear yields as many missing markers as its value (not divided by
    the channel count). In particular, with one desired channel and a matrix
    of at least four columns, decoding [0x00000003; 0x80000005] makes the
    last four columns of the matrix NaN, NaN, NaN, 5. *)
Theorem read_data_expansion (st : Counter) (burst : list Z) :
  Forall is_uint32 burst →
  has_shape st →
  expand_burst (remaining_counters_array st) burst
  = reference_expansion (remaining_counters_array st) burst
  ∧ read_data burst st
    = store_rows (reference_expansion (remaining_counters_array st) burst) st
  ∧ (number_of_desired_channels st = 1%nat →
     remaining_counters_array st = [] →
     (4 ≤ capture_size st)%nat →
     ∃ st' older,
       read_data [0x00000003; 0x80000005] st = Returned st' (data_array st')
       ∧ data_array st' = [older ++ [NaN; NaN; NaN; Count 5]]
       ∧ length older = (capture_size st - 4)%nat).
Proof.
  intros _ [Hlen Hrows]. split; [apply expand_burst_reference|].
  split; [unfold read_data; by rewrite expand_burst_reference|].
  intros HK Hrem Hcap. unfold read_data. rewrite Hrem.
  change (expand_burst [] [3; 2147483653]) with [NaN; NaN; NaN; Count 5].
  rewrite store_rows_fits; rewrite HK in *; simpl length;
    change (4 / 1)%nat with 4%nat; try lia.
  destruct (data_array st) as [|row [|]] eqn:Ed; try done.
  apply Forall_cons in Hrows as [Hrow _].
  eexists (set_data_array _ (set_remaining_counters_array _ st)), (drop 4 row).
  split; [reflexivity|]. split; [done|].
  rewrite length_drop. lia.
Qed.

(** The expansion claim on a counter with one channel and six columns. *)
Lemma read_data_expansion_witness :
  ∃ st' older,
    read_data [0x00000003; 0x80000005] (fresh 6 8 64 1)
    = Returned st' (data_array st')
    ∧ data_array st' = [older ++ [NaN; NaN; NaN; Count 5]]
    ∧ length older = 2%nat.
Proof.
  refine (proj2 (proj2 (read_data_expansion (fresh 6 8 64 1) [3; 0x80000005] _ _))
            _ _ _).
  - repeat constructor; unfold is_uint32; lia.
  - split; [reflexivity|]. repeat constructor.
  - reflexivity.
  - reflexivity.
  - simpl. lia.
Defined.

(** C3, as stated, fails on its example: with three desired channels, four
    valid-tagged words leave one scalar pending, but the call with two more
    words completes a second row; two rows are complete across the two
    calls, not one. *)
Lemma carry_over_two_rows :
  let st0 := fresh 5 8 64 3 in
  let st1 := state_after (read_data carry_burst1 st0) in
  let st2 := state_after (read_data carry_burst2 st1) in
  length (remaining_counters_array st1) = 1%nat
  ∧ (completed_rows carry_burst1 st0 + completed_rows carry_burst2 st1)%nat ≠ 1%nat
  ∧ (completed_rows carry_burst1 st0 + completed_rows carry_burst2 st1)%nat = 2%nat
  ∧ data_array st2 = [[NaN; NaN; NaN; Count 1; Count 4];
                      [NaN; NaN; NaN; Count 2; Count 5];
                      [NaN; NaN; NaN; Count 3; Count 6]].
Proof. vm_compute. repeat split; discriminate. Qed.

(** C3, amended. With [K > 0] desired channels and [ws] the pending tail
    followed by the scalars expanded in the call, [read_data] takes the
    first [floor(len ws / K) * K] scalars of [ws] as the rows of the call and
    stores the rest, always fewer than [K], as the new pending tail; when
    the rows fit the matrix they all enter it. With [K = 3] and nothing
    pending, a call with four valid-tagged words completes one row and
    leaves one scalar pending, and a following call with two more
    valid-tagged words completes exactly one further row and leaves nothing
    pending: two rows across the two calls. *)
Theorem read_data_carry_over (st : Counter) (burst : list Z) :
  Forall is_uint32 burst →
  (0 < number_of_desired_channels st)%nat →
  let K := number_of_desired_channels st in
  let ws := expand_burst (remaining_counters_array st) burst in
  let rows := completed_rows burst st in
  let st' := state_after (read_data burst st) in
  take (rows * K) ws ++ remaining_counters_array st' = ws
  ∧ length (take (rows * K) ws) = (rows * K)%nat
  ∧ remaining_counters_array st' = drop (rows * K) ws
  ∧ (length (remaining_counters_array st') < K)%nat
  ∧ (has_shape st → (rows ≤ capture_size st)%nat →
     read_data burst st = Returned st' (data_array st')
     ∧ data_array st'
       = zip_with app (map (drop rows) (data_array st))
           (np_transpose K (rows_of (take (rows * K) ws) rows K)))
  ∧ (K = 3%nat → remaining_counters_array st = [] →
     ∀ burst1 burst2,
       length burst1 = 4%nat → length burst2 = 2%nat →
       Forall (λ w, Z.testbit w 31 = true) (burst1 ++ burst2) →
       let st1 := state_after (read_data burst1 st) in
       let st2 := state_after (read_data burst2 st1) in
       completed_rows burst1 st = 1%nat
       ∧ length (remaining_counters_array st1) = 1%nat
       ∧ completed_rows burst2 st1 = 1%nat
       ∧ remaining_counters_array st2 = []).
Proof.
  intros _ HK K ws rows st'.
  assert (remaining_counters_array st' = drop (rows * K) ws) as Hrem.
  { subst st'. unfold read_data. by rewrite store_rows_remaining. }
  split; [by rewrite Hrem, take_drop|].
  split; [apply length_consumed|].
  split; [done|].
  split; [rewrite Hrem; by apply length_pending|].
  split.
  - intros [Hlen _] Hfit. subst st'. unfold read_data in *.
    rewrite store_rows_fits by done. by simpl.
  - clear Hrem. subst rows ws st' K. intros HK3 Hnil b1 b2 Hl1 Hl2 Hvalid.
    apply Forall_app in Hvalid as [Hv1 Hv2].
    destruct b1 as [|w1 [|w2 [|w3 [|w4 [|]]]]]; try done.
    destruct b2 as [|w5 [|w6 [|]]]; try done.
    cbv zeta.
    assert (remaining_counters_array (state_after (read_data [w1; w2; w3; w4] st))
            = [Count (w4 mod 2 ^ 31)]) as Hrem1.
    { unfold read_data. rewrite store_rows_remaining by lia.
      rewrite Hnil, expand_burst_valid by done. by rewrite HK3. }
    assert (number_of_desired_channels
              (state_after (read_data [w1; w2; w3; w4] st)) = 3%nat) as HK1.
    { unfold read_data.
      by rewrite (proj1 (store_rows_frame _ st)). }
    unfold completed_rows.
    rewrite Hrem1, HK1, Hnil, !expand_burst_valid by done.
    rewrite HK3.
    repeat split; try reflexivity.
    unfold read_data at 1. rewrite store_rows_remaining by lia.
    rewrite Hrem1, HK1, expand_burst_valid by done. reflexivity.
Qed.

(** The carry-over scenario on a counter with three channels. *)
Lemma read_data_carry_over_witness :
  let st := fresh 5 8 64 3 in
  let st1 := state_after (read_data carry_burst1 st) in
  let st2 := state_after (read_data carry_burst2 st1) in
  completed_rows carry_burst1 st = 1%nat
  ∧ length (remaining_counters_array st1) = 1%nat
  ∧ completed_rows carry_burst2 st1 = 1%nat
  ∧ remaining_counters_array st2 = [].
Proof.
  refine (proj2 (proj2 (proj2 (proj2 (proj2
            (read_data_carry_over (fresh 5 8 64 3) carry_burst1 _ _)))))
            _ _ carry_burst1 carry_burst2 _ _ _).
  - repeat constructor; unfold is_uint32; lia.
  - simpl. lia.
  - reflexivity.
  - reflexivity.
  - reflexivity.
  - reflexivity.
  - repeat constructor.
Defined.

(** C4, at a matrix without columns. Every complete row overflows it, and
    the call should keep the last zero rows and return the empty matrix;
    instead [added_data[-0:]] keeps all the scalars and [np.reshape] raises
    [ValueError], after the pending tail has been replaced. *)
Theorem read_data_zero_capture_raises :
  (capture_size (fresh 0 8 64 1)
   < completed_rows [0x80000005%Z] (fresh 0 8 64 1))%nat
  ∧ read_data [0x80000005] (fresh 0 8 64 1)
    = Raised ValueError (fresh 0 8 64 1).
Proof. split; [vm_compute; lia|reflexivity]. Qed.

(** The same for every counter without columns. *)
Lemma read_data_zero_capture (st : Counter) (burst : list Z) :
  (0 < number_of_desired_channels st)%nat →
  capture_size st = 0%nat →
  (0 < completed_rows burst st)%nat →
  ∃ st', read_data burst st = Raised ValueError st'
         ∧ data_array st' = data_array st.
Proof.
  intros HK Hcap Hrows. unfold read_data.
  rewrite store_rows_zero_capture by done. eauto.
Qed.

(** With at least one column the overflow is handled as intended: the
    oldest [(rows - capture_size) * K] scalars of the call are dropped and
    the matrix is made of the last [capture_size] rows. *)
Lemma read_data_overflow (st : Counter) (burst : list Z) :
  has_shape st →
  (0 < number_of_desired_channels st)%nat →
  (0 < capture_size st < completed_rows burst st)%nat →
  let K := number_of_desired_channels st in
  let cap := capture_size st in
  let ws := expand_burst (remaining_counters_array st) burst in
  let rows := completed_rows burst st in
  let kept := drop ((rows - cap) * K) (take (rows * K) ws) in
  ∃ st', read_data burst st = Returned st' (data_array st')
         ∧ length kept = (cap * K)%nat
         ∧ data_array st' = np_transpose K (rows_of kept cap K).
Proof.
  intros [Hlen Hrows] HK Hover. cbv zeta. unfold completed_rows in *.
  unfold read_data. rewrite store_rows_overflow by done.
  eexists (set_data_array _ (set_remaining_counters_array _ st)).
  split; [reflexivity|]. split.
  - rewrite length_drop, length_consumed. nia.
  - apply zip_with_app_drop_all; [done|].
    by rewrite np_transpose_length.
Qed.

Example overflow_example :
  read_data [0x80000001; 0x80000002; 0x80000003; 0x80000004; 0x80000005]
    (fresh 2 8 64 1)
  = Returned (set_data_array [[Count 4; Count 5]] (fresh 2 8 64 1))
      [[Count 4; Count 5]].
Proof. reflexivity. Qed.

Lemma rows_of_length (a : list scalar) (rows K : nat) :
  length (rows_of a rows K) = rows.
Proof. unfold rows_of. by rewrite length_map, length_seq. Qed.

(** C5. The rolling matrix keeps the shape [K x capture_size] across every
    [read_data] call: after the call, returned or raised, the matrix has the
    shape it had before; and a call that has rows and columns to work with
    returns the matrix that drops the leftmost [n] columns and appends [n]
    new columns on the right, [n] being the number of completed rows clamped
    to [capture_size]. *)
Theorem read_data_keeps_shape (st : Counter) (burst : list Z) :
  Forall is_uint32 burst →
  has_shape st →
  let K := number_of_desired_channels st in
  let n := (completed_rows burst st `min` capture_size st)%nat in
  has_shape (state_after (read_data burst st))
  ∧ number_of_desired_channels (state_after (read_data burst st)) = K
  ∧ capture_size (state_after (read_data burst st)) = capture_size st
  ∧ ((0 < K)%nat →
     (0 < capture_size st)%nat ∨ completed_rows burst st = 0%nat →
     ∃ st' new,
       read_data burst st = Returned st' (data_array st')
       ∧ length new = K
       ∧ Forall (λ channel, length channel = n) new
       ∧ data_array st' = zip_with app (map (drop n) (data_array st)) new).
Proof.
  intros _ Hshape K n.
  split; [by apply store_rows_shape|].
  split; [apply store_rows_frame|].
  split; [apply store_rows_frame|].
  intros HK Hcols. destruct Hshape as [Hlen Hrows].
  subst n K. unfold completed_rows in *. unfold read_data.
  set (ws := expand_burst (remaining_counters_array st) burst) in *.
  destruct (decide (length ws / number_of_desired_channels st
                    ≤ capture_size st)%nat) as [Hfit|Hover].
  - rewrite store_rows_fits by done. rewrite Nat.min_l by done.
    eexists (set_data_array _ (set_remaining_counters_array _ st)), _.
    split; [reflexivity|]. split; [apply np_transpose_length|].
    split; [|reflexivity].
    eapply Forall_impl; [apply np_transpose_rows|].
    intros channel ->. apply rows_of_length.
  - rewrite store_rows_overflow by (try done; lia).
    rewrite Nat.min_r by lia.
    eexists (set_data_array _ (set_remaining_counters_array _ st)), _.
    split; [reflexivity|]. split; [apply np_transpose_length|].
    split; [|reflexivity].
    eapply Forall_impl; [apply np_transpose_rows|].
    intros channel ->. apply rows_of_length.
Qed.

(** The shape is kept by a call that leaves a scalar pending. *)
Lemma read_data_keeps_shape_witness :
  has_shape (state_after (read_data carry_burst1 (fresh 5 8 64 3))).
Proof.
  refine (proj1 (read_data_keeps_shape (fresh 5 8 64 3) carry_burst1 _ _)).
  - repeat constructor; unfold is_uint32; lia.
  - split; [reflexivity|]. repeat constructor.
Defined.

(** C6. A burst that is empty or made of zero words only changes nothing:
    given a matrix of the right shape and a pending tail of fewer than [K]
    scalars, [read_data] returns the matrix it found and leaves the matrix
    and the pending tail as they were. *)
Theorem read_data_dummy_burst (st : Counter) (burst : list Z) :
  Forall (λ w, w = 0) burst →
  has_shape st →
  (length (remaining_counters_array st) < number_of_desired_channels st)%nat →
  read_data burst st = Returned st (data_array st).
Proof.
  intros Hzero [Hlen _] Hpending. unfold read_data.
  rewrite expand_burst_dummy by done.
  rewrite store_rows_fits; rewrite ?Nat.div_small by done; try lia.
  simpl. rewrite zip_with_app_nil by done. by destruct st.
Qed.

(** A dummy burst on a counter that holds one pending scalar. *)
Lemma read_data_dummy_burst_witness :
  let st := mkCounter 0x80006500 4 8 64 2 (np_full 2 4) [Count 7] [] in
  read_data [0; 0; 0] st = Returned st (np_full 2 4).
Proof.
  apply (read_data_dummy_burst
           (mkCounter 0x80006500 4 8 64 2 (np_full 2 4) [Count 7] [])
           [0; 0; 0]).
  - repeat constructor.
  - split; [reflexivity|]. repeat constructor.
  - simpl. lia.
Defined.

(** * Properties of the channel look-up table *)

Section lut_facts.
Variable noc : Z.
Implicit Types (rl lut : list Z) (m : channel_dict) (ws : list (Z * Z)).

Lemma bind_inr {A B} (r : res A) (k : A → res B) (b : B) :
  bind r k = inr b ↔ ∃ a, r = inr a ∧ k a = inr b.
Proof. destruct r; simpl; naive_solver. Qed.

Lemma for_each_app {A S} (body : S → A → res S) (acc : S) (xs ys : list A) :
  for_each body acc (xs ++ ys)
  = try acc' := for_each body acc xs in for_each body acc' ys.
Proof.
  revert acc. induction xs as [|x xs IH]; intros acc; simpl; [done|].
  destruct (body acc x); simpl; [done|apply IH].
Qed.

Lemma for_each_values (k : Z) rl (vals : list Z) :
  for_each (write_one noc) rl ((λ val, (k, val)) <$> vals)
  = for_each (process_value noc k) rl vals.
Proof.
  revert rl. induction vals as [|v vals IH]; intros rl; simpl; [done|].
  unfold write_one at 1. simpl. destruct (process_value noc k rl v); simpl; auto.
Qed.

Lemma process_item_writes rl (item : Z * channel_value) :
  item_ok noc item →
  process_item noc rl item
  = for_each (write_one noc) rl ((λ val, (item.1, val)) <$> values_of item.2).
Proof.
  destruct item as [k v]. intros [Hk Hv]. simpl in *.
  rewrite for_each_values.
  destruct (Z.leb_spec 0 k), (Z.ltb_spec k noc); try lia. simpl.
  destruct v; simpl; [|done|done].
  by destruct (process_value noc k rl val).
Qed.

Lemma process_item_inr rl rl' (item : Z * channel_value) :
  process_item noc rl item = inr rl' → item_ok noc item.
Proof.
  destruct item as [k v]. unfold item_ok. simpl.
  destruct (Z.leb_spec 0 k), (Z.ltb_spec k noc); simpl; try done.
  destruct v; try done; intros _; split; (lia || done).
Qed.

Lemma for_each_items_writes rl m :
  Forall (item_ok noc) m →
  for_each (process_item noc) rl m = for_each (write_one noc) rl (writes m).
Proof.
  intros Hm. revert rl. induction Hm as [|item m Hitem _ IH]; intros rl.
  - done.
  - unfold writes. simpl. fold (writes m). rewrite for_each_app.
    rewrite <- process_item_writes by done.
    destruct (process_item noc rl item); simpl; [done|apply IH].
Qed.

Lemma for_each_items_inr rl rl' m :
  for_each (process_item noc) rl m = inr rl' → Forall (item_ok noc) m.
Proof.
  revert rl. induction m as [|item m IH]; intros rl; simpl; [done|].
  intros (rl1 & H1 & H2)%bind_inr. constructor; eauto using process_item_inr.
Qed.

Lemma process_value_inr (k : Z) rl rl' (v : Z) :
  process_value noc k rl v = inr rl'
  ↔ rl !! slot_of v = Some noc ∧ rl' = <[slot_of v := k]> rl.
Proof.
  unfold process_value. destruct (rl !! slot_of v) as [x|]; [|naive_solver].
  destruct (Z.eqb_spec x noc); unfold ret, raise; naive_solver.
Qed.

(** What a run of writes that raises nothing has done. *)
Lemma run_writes_inr ws : ∀ rl rl',
  Forall (λ w, w.1 ≠ noc) ws →
  for_each (write_one noc) rl ws = inr rl' →
  NoDup ((λ w, slot_of w.2) <$> ws)
  ∧ (∀ w, w ∈ ws → rl !! slot_of w.2 = Some noc)
  ∧ length rl' = length rl
  ∧ (∀ w, w ∈ ws → rl' !! slot_of w.2 = Some w.1)
  ∧ (∀ i, i ∉ (λ w, slot_of w.2) <$> ws → rl' !! i = rl !! i).
Proof.
  induction ws as [|[k v] ws IH]; intros rl rl' Hkeys Hrun.
  { injection Hrun as <-. repeat split; try done.
    - constructor.
    - intros w Hw. by apply elem_of_nil in Hw.
    - intros w Hw. by apply elem_of_nil in Hw. }
  apply Forall_cons in Hkeys as [Hk Hkeys]. simpl in Hk.
  simpl in Hrun. apply bind_inr in Hrun as (rl1 & H1 & Hrun).
  apply process_value_inr in H1 as [Hfree ->]. simpl in Hfree, Hrun.
  destruct (IH _ _ Hkeys Hrun) as (Hnd & Hfree' & Hlen & Hset & Hkeep).
  assert (slot_of v < length rl)%nat as Hin
    by (apply lookup_lt_is_Some; eauto).
  assert (slot_of v ∉ (λ w, slot_of w.2) <$> ws) as Hfresh.
  { intros (w & Heq & Hw)%list_elem_of_fmap. simpl in Heq.
    specialize (Hfree' w Hw). rewrite <- Heq in Hfree'.
    rewrite list_lookup_insert_eq in Hfree' by done. congruence. }
  rewrite length_insert in Hlen. rewrite fmap_cons. simpl.
  split; [by constructor|]. split; [|split; [done|split]].
  - intros w [->|Hw]%elem_of_cons; [done|].
    specialize (Hfree' w Hw).
    rewrite list_lookup_insert_ne in Hfree'; [done|].
    intros Heq. apply Hfresh, list_elem_of_fmap. eauto.
  - intros w [->|Hw]%elem_of_cons; [|by apply Hset].
    simpl. rewrite Hkeep by done. by apply list_lookup_insert_eq.
  - intros i [Hne Hi]%not_elem_of_cons.
    rewrite Hkeep by done. by apply list_lookup_insert_ne.
Qed.

(** Writes to free, distinct slots raise nothing. *)
Lemma run_writes_ok ws : ∀ rl,
  NoDup ((λ w, slot_of w.2) <$> ws) →
  (∀ w, w ∈ ws → rl !! slot_of w.2 = Some noc) →
  ∃ rl', for_each (write_one noc) rl ws = inr rl'.
Proof.
  induction ws as [|[k v] ws IH]; intros rl Hnd Hfree; simpl; [by eexists|].
  rewrite fmap_cons in Hnd. apply NoDup_cons in Hnd as [Hfresh Hnd].
  unfold write_one at 1, process_value. simpl.
  pose proof (Hfree (k, v) (list_elem_of_here _ _)) as Hhead.
  simpl in Hhead. rewrite Hhead. simpl.
  rewrite Z.eqb_refl. simpl. apply IH; [done|].
  intros w Hw. rewrite list_lookup_insert_ne.
  - apply Hfree. by apply list_elem_of_further.
  - intros Heq. apply Hfresh, list_elem_of_fmap. eauto.
Qed.
End lut_facts.

Section build_facts.
Variable noc : Z.
Variable depth : nat.
Implicit Types (lut : list Z) (m : channel_dict).

Lemma forallb_keys (n : Z) m :
  forallb (λ item : Z * channel_value, (0 <=? item.1) && (item.1 <? n)) m = true
  ↔ Forall (λ item, 0 ≤ item.1 < n) m.
Proof.
  induction m as [|item m IH]; simpl.
  - split; [constructor|done].
  - rewrite Forall_cons, andb_true_iff, IH, andb_true_iff.
    rewrite Z.leb_le, Z.ltb_lt. tauto.
Qed.

Lemma elem_of_writes m (w : Z * Z) :
  w ∈ writes m ↔ ∃ values, (w.1, values) ∈ m ∧ w.2 ∈ values_of values.
Proof.
  unfold writes. rewrite list_elem_of_bind. split.
  - intros ([k values] & Hw & Hitem).
    apply list_elem_of_fmap in Hw as (val & -> & Hval). simpl in *. eauto.
  - intros (values & Hitem & Hval). exists (w.1, values). split; [|done].
    apply list_elem_of_fmap. exists w.2. split; [by destruct w|done].
Qed.

Lemma writes_keys m :
  Forall (item_ok noc) m → Forall (λ w, w.1 ≠ noc) (writes m).
Proof.
  intros Hm. apply Forall_forall. intros w (values & Hitem & _)%elem_of_writes.
  rewrite Forall_forall in Hm. destruct (Hm _ Hitem) as [Hk _]. simpl in Hk. lia.
Qed.

(** The build, when it returns. *)
Lemma assign_sound m lut (n : nat) :
  _assign_channel_indices noc depth m = inr (lut, n) →
  acceptable noc depth m
  ∧ n = length m
  ∧ length lut = depth
  ∧ (∀ w, w ∈ writes m → lut !! slot_of w.2 = Some w.1)
  ∧ (∀ i, (i < depth)%nat → i ∉ slots m → lut !! i = Some noc).
Proof.
  unfold _assign_channel_indices.
  destruct (forallb _ m) eqn:Hkeys; [|done].
  apply forallb_keys in Hkeys.
  intros (lut' & Hrun & [= <- <-])%bind_inr.
  pose proof (for_each_items_inr _ _ _ _ Hrun) as Hitems.
  rewrite for_each_items_writes in Hrun by done.
  apply run_writes_inr in Hrun as (Hnd & Hfree & Hlen & Hset & Hkeep);
    [|by apply writes_keys].
  rewrite length_replicate in Hlen.
  split; [|repeat split; try done].
  - split; try done. apply Forall_forall.
    intros i (w & -> & Hw)%list_elem_of_fmap.
    specialize (Hfree w Hw). by apply lookup_replicate in Hfree as [_ ?].
  - intros i Hi Hfresh. rewrite Hkeep by done. by apply lookup_replicate_2.
Qed.

(** The build returns on every acceptable dictionary. *)
Lemma assign_complete m :
  acceptable noc depth m →
  ∃ lut, _assign_channel_indices noc depth m = inr (lut, length m).
Proof.
  intros [Hdense Hitems Hrange Hnd]. unfold _assign_channel_indices.
  apply forallb_keys in Hdense. rewrite Hdense.
  rewrite for_each_items_writes by done.
  destruct (run_writes_ok noc (writes m) (replicate depth noc) Hnd) as [lut ->].
  - intros w Hw. apply lookup_replicate_2.
    rewrite Forall_forall in Hrange. apply Hrange.
    apply list_elem_of_fmap. eauto.
  - by eexists.
Qed.
End build_facts.

Lemma set_lut_channels_inr (st : Counter) (m : channel_dict) lut (n : nat) :
  _assign_channel_indices (number_of_channels st) (lut_channels_depth st) m
  = inr (lut, n) →
  set_lut_channels (Some m) st = Returned (configured st lut n) tt.
Proof.
  intros H. unfold set_lut_channels. rewrite H.
  unfold configured, reset_FPGA_module, wb_write, wb_burst_write. simpl.
  by rewrite <- !app_assoc.
Qed.

Lemma set_lut_channels_inl (st : Counter) (m : channel_dict) (e : exn) :
  _assign_channel_indices (number_of_channels st) (lut_channels_depth st) m
  = inl e →
  set_lut_channels (Some m) st = Raised e st.
Proof. intros H. unfold set_lut_channels. by rewrite H. Qed.

(** * Claims about the channel look-up table *)

(** C1, as stated, fails: the build does not compare the physical values
    with the channel count. The value [-5] of the source's own example is
    outside [[0, 8)], and the build accepts it, puts key [0] in slot [59] and
    configures the hardware. *)
Lemma negative_value_accepted :
  let st := fresh 10 8 64 1 in
  let m := [(0, VInt (-5))] in
  (∃ w, w ∈ writes m ∧ ¬ (0 ≤ w.2 < number_of_channels st))
  ∧ set_lut_channels (Some m) st
    = Returned (configured st (<[59%nat := 0]> (replicate 64 8)) 1) tt
  ∧ wb_log (state_after (set_lut_channels (Some m) st)) ≠ wb_log st.
Proof.
  split; [|split; [reflexivity|discriminate]].
  exists (0, -5). split; [apply list_elem_of_here|]. simpl. lia.
Qed.

(** C1, amended. The build does not range-check the physical values against
    the channel count: it returns exactly on the dictionaries whose keys are
    in [[0, len)] and in [[0, number_of_channels)], whose values are ints or
    lists, and whose slots [val & 0x3F] are below the table depth and
    pairwise distinct, whatever the sign or size of the values. When the
    build raises, [set_lut_channels] raises the same exception and leaves the
    state and the bus untouched; when it returns, [set_lut_channels] resets
    the module and writes the channel count and the table. *)
Theorem set_lut_channels_value_range (st : Counter) (m : channel_dict) :
  let noc := number_of_channels st in
  let depth := lut_channels_depth st in
  (∀ e, _assign_channel_indices noc depth m = inl e →
        set_lut_channels (Some m) st = Raised e st)
  ∧ (∀ lut n, _assign_channel_indices noc depth m = inr (lut, n) →
              acceptable noc depth m)
  ∧ (acceptable noc depth m →
     ∃ lut, _assign_channel_indices noc depth m = inr (lut, length m)
            ∧ set_lut_channels (Some m) st
              = Returned (configured st lut (length m)) tt).
Proof.
  intros noc depth. split; [|split].
  - intros e. apply set_lut_channels_inl.
  - intros lut n H. by apply assign_sound in H as [? _].
  - intros Hacc. destruct (assign_complete noc depth m Hacc) as [lut Hlut].
    exists lut. split; [done|]. by apply set_lut_channels_inr.
Qed.

(** The negative values of the source's example are accepted. *)
Lemma set_lut_channels_value_range_witness :
  ∃ lut,
    _assign_channel_indices 8 64 [(0, VInt (-5)); (1, VList [-8; 8])]
    = inr (lut, 2%nat)
    ∧ set_lut_channels (Some [(0, VInt (-5)); (1, VList [-8; 8])])
        (fresh 10 8 64 1)
      = Returned (configured (fresh 10 8 64 1) lut 2) tt.
Proof.
  refine (proj2 (proj2 (set_lut_channels_value_range (fresh 10 8 64 1)
                          [(0, VInt (-5)); (1, VList [-8; 8])])) _).
  split.
  - repeat constructor; simpl; lia.
  - repeat constructor; simpl; (lia || done).
  - repeat constructor; simpl; lia.
  - apply (bool_decide_unpack _). vm_compute. exact I.
Defined.

(** C8. A dictionary in which two calls of [process_value], under the same
    key or under different keys, target the same slot after masking with
    [0x3F] is refused: the build raises and [set_lut_channels] leaves the
    counter as it was. The values [70] and [6] both mask to slot [6], so
    assigning both is refused. *)
Theorem assign_channel_indices_collision (st : Counter) (m : channel_dict)
    (i j : nat) (w1 w2 : Z * Z) :
  writes m !! i = Some w1 →
  writes m !! j = Some w2 →
  i ≠ j →
  slot_of w1.2 = slot_of w2.2 →
  (∃ e, _assign_channel_indices (number_of_channels st)
          (lut_channels_depth st) m = inl e
        ∧ set_lut_channels (Some m) st = Raised e st)
  ∧ slot_of 70 = slot_of 6.
Proof.
  intros Hi Hj Hne Hslot. split; [|reflexivity].
  destruct (_assign_channel_indices _ _ m) as [e|[lut n]] eqn:Hrun.
  { exists e. split; [done|]. by apply set_lut_channels_inl. }
  apply assign_sound in Hrun as [[_ _ _ Hnd] _].
  exfalso. apply Hne. eapply NoDup_lookup; [exact Hnd| |].
  - unfold slots. rewrite list_lookup_fmap, Hi. reflexivity.
  - unfold slots. rewrite list_lookup_fmap, Hj. simpl. by rewrite Hslot.
Qed.

(** The values 70 and 6 under two keys. *)
Lemma assign_channel_indices_collision_witness :
  (∃ e, _assign_channel_indices 8 64 [(0, VInt 70); (1, VInt 6)] = inl e
        ∧ set_lut_channels (Some [(0, VInt 70); (1, VInt 6)]) (fresh 10 8 64 1)
          = Raised e (fresh 10 8 64 1))
  ∧ slot_of 70 = slot_of 6.
Proof.
  apply (assign_channel_indices_collision (fresh 10 8 64 1)
           [(0, VInt 70); (1, VInt 6)] 0 1 (0, 70) (1, 6)).
  - reflexivity.
  - reflexivity.
  - lia.
  - reflexivity.
Defined.

Example collision_is_assertion_error :
  _assign_channel_indices 8 64 [(0, VInt 70); (1, VInt 6)] = inl AssertionError
  ∧ _assign_channel_indices 8 64 [(0, VList [5]); (1, VList [3; 5])]
    = inl AssertionError.
Proof. split; reflexivity. Qed.

(** C9. When the build returns, the table has [lut_channels_depth]
    entries, the slot of every masked value holds the key that the value
    is listed under, and every other slot holds the discard sentinel
    [number_of_channels]. *)
Theorem assign_channel_indices_lut (noc : Z) (depth : nat) (m : channel_dict)
    (lut : list Z) (n : nat) :
  _assign_channel_indices noc depth m = inr (lut, n) →
  length lut = depth
  ∧ (∀ key values val,
       (key, values) ∈ m → val ∈ values_of values →
       lut !! slot_of val = Some key)
  ∧ (∀ i, (i < depth)%nat →
       (∀ key values val,
          (key, values) ∈ m → val ∈ values_of values → slot_of val ≠ i) →
       lut !! i = Some noc).
Proof.
  intros (_ & _ & Hlen & Hset & Hkeep)%assign_sound.
  split; [done|]. split.
  - intros key values val Hitem Hval.
    apply (Hset (key, val)), elem_of_writes. eauto.
  - intros i Hi Hfree. apply Hkeep; [done|].
    intros (w & -> & (values & Hitem & Hval)%elem_of_writes)%list_elem_of_fmap.
    by eapply Hfree.
Qed.

(** The table of the dictionary in the comment above [set_lut_channels]. *)
Lemma assign_channel_indices_lut_witness :
  let lut := <[1%nat:=0]> (<[2%nat:=1]> (<[3%nat:=1]> (<[60%nat:=2]> (<[4%nat:=2]>
               (replicate 64 8))))) in
  length lut = 64%nat
  ∧ (∀ key values val,
       (key, values) ∈ [(0, VInt 1); (1, VList [2; 3]); (2, VList [-4; 4])] →
       val ∈ values_of values →
       lut !! slot_of val = Some key)
  ∧ (∀ i, (i < 64)%nat →
       (∀ key values val,
          (key, values) ∈ [(0, VInt 1); (1, VList [2; 3]); (2, VList [-4; 4])] →
          val ∈ values_of values → slot_of val ≠ i) →
       lut !! i = Some 8).
Proof.
  apply (assign_channel_indices_lut 8 64
           [(0, VInt 1); (1, VList [2; 3]); (2, VList [-4; 4])] _ 3).
  reflexivity.
Defined.

(** * Properties of the table decoder ([get_lut_channels]) *)

Section decode_facts.
Implicit Types (d : list (Z * list nat)) (l : list Z) (k : Z).

Lemma elem_of_positions k l : ∀ (index i : nat),
  i ∈ positions k index l ↔ (index ≤ i)%nat ∧ l !! (i - index)%nat = Some k.
Proof.
  induction l as [|x l IH]; intros index i; simpl.
  { rewrite elem_of_nil. naive_solver. }
  assert ((S index ≤ i)%nat ∧ l !! (i - S index)%nat = Some k
          ↔ (index ≤ i)%nat ∧ i ≠ index ∧ (x :: l) !! (i - index)%nat = Some k)
    as Htail.
  { split.
    - intros [Hle Hl]. repeat split; [lia|lia|].
      by replace (i - index)%nat with (S (i - S index)) by lia.
    - intros (Hle & Hne & Hl). split; [lia|].
      by replace (i - index)%nat with (S (i - S index)) in Hl by lia. }
  destruct (decide (x = k)) as [->|Hne].
  - rewrite elem_of_cons, IH, Htail. split.
    + intros [->|(? & ? & ?)]; [|done].
      split; [lia|]. by rewrite Nat.sub_diag.
    + intros [Hle Hl]. destruct (decide (i = index)); [by left|by right].
  - rewrite IH, Htail. split; [naive_solver|].
    intros [Hle Hl]. repeat split; try done.
    intros ->. rewrite Nat.sub_diag in Hl. simpl in Hl. congruence.
Qed.

Lemma NoDup_positions k l : ∀ index, NoDup (positions k index l).
Proof.
  induction l as [|x l IH]; intros index; simpl; [constructor|].
  destruct (decide (x = k)); [|done].
  constructor; [|done]. rewrite elem_of_positions. lia.
Qed.

Lemma positions_lookup k l (i : nat) :
  i ∈ positions k 0 l ↔ l !! i = Some k.
Proof. rewrite elem_of_positions, Nat.sub_0_r. split; [tauto|]. split; [lia|done]. Qed.

(** [setdefault(...).append(...)] as seen through [get]. *)
Lemma dict_get_setdefault d (v : Z) (i : nat) k :
  dict_get (setdefault_append d v i) k
  = if decide (k = v) then Some (default [] (dict_get d v) ++ [i])
    else dict_get d k.
Proof.
  induction d as [|[k' ls] d IH]; simpl.
  - destruct (decide (v = k)), (decide (k = v)); try done; congruence.
  - destruct (Z.eqb_spec k' v) as [->|Hne]; simpl.
    + rewrite (decide_True (P := v = v)) by done.
      destruct (decide (v = k)), (decide (k = v)); try done; congruence.
    + rewrite IH, (decide_False (P := k' = v)) by done.
      destruct (decide (k' = k)), (decide (k = v)); try done; congruence.
Qed.

Lemma keys_setdefault d (v : Z) (i : nat) :
  (setdefault_append d v i).*1
  = if decide (v ∈ d.*1) then d.*1 else d.*1 ++ [v].
Proof.
  induction d as [|[k' ls] d IH]; [done|].
  cbn [setdefault_append].
  destruct (Z.eqb_spec k' v) as [->|Hne]; rewrite !fmap_cons; cbn [fst].
  - rewrite decide_True; [done|]. apply list_elem_of_here.
  - rewrite IH. destruct (decide (v ∈ d.*1)).
    + rewrite decide_True; [done|]. by apply list_elem_of_further.
    + rewrite decide_False; [done|]. rewrite elem_of_cons. naive_solver.
Qed.

Lemma NoDup_keys_setdefault d (v : Z) (i : nat) :
  NoDup d.*1 → NoDup (setdefault_append d v i).*1.
Proof.
  intros Hd. rewrite keys_setdefault. case_decide; [done|].
  apply NoDup_app. repeat split; [done| |apply NoDup_singleton].
  intros x Hx ->%list_elem_of_singleton. done.
Qed.

Lemma dict_get_group_slots (noc : Z) k l : ∀ (index : nat) d,
  dict_get (group_slots noc index l d) k
  = match grouped noc k index l with
    | [] => dict_get d k
    | ps => Some (default [] (dict_get d k) ++ ps)
    end.
Proof.
  unfold grouped.
  induction l as [|x l IH]; intros index d; simpl.
  { by destruct (decide (k < noc)). }
  rewrite IH. destruct (decide (k < noc)) as [Hk|Hk].
  - destruct (decide (x = k)) as [->|Hne].
    + rewrite (proj2 (Z.ltb_lt k noc)) by done.
      rewrite dict_get_setdefault, decide_True by done. simpl.
      destruct (positions k (S index) l); [done|].
      by rewrite <- app_assoc.
    + assert (dict_get (if x <? noc then setdefault_append d x index else d) k
              = dict_get d k) as ->; [|done].
      destruct (x <? noc); [|done].
      rewrite dict_get_setdefault. by rewrite decide_False.
  - assert (dict_get (if x <? noc then setdefault_append d x index else d) k
            = dict_get d k) as ->; [|done].
    destruct (Z.ltb_spec x noc); [|done].
    rewrite dict_get_setdefault. rewrite decide_False; [done|lia].
Qed.

Lemma NoDup_keys_group_slots (noc : Z) l : ∀ (index : nat) d,
  NoDup d.*1 → NoDup (group_slots noc index l d).*1.
Proof.
  induction l as [|x l IH]; intros index d Hd; simpl; [done|].
  apply IH. destruct (x <? noc); [by apply NoDup_keys_setdefault|done].
Qed.

Lemma elem_of_dict_get d k (ls : list nat) :
  NoDup d.*1 → (k, ls) ∈ d ↔ dict_get d k = Some ls.
Proof.
  induction d as [|[k' ls'] d IH]; simpl; intros Hd.
  { rewrite elem_of_nil. naive_solver. }
  apply NoDup_cons in Hd as [Hfresh Hd]. rewrite elem_of_cons, IH by done.
  destruct (decide (k' = k)) as [->|Hne].
  - split; [|naive_solver]. intros [?|Hget]; [naive_solver|].
    exfalso. apply Hfresh. apply IH in Hget; [|done].
    apply list_elem_of_fmap. by exists (k, ls).
  - naive_solver.
Qed.
End decode_facts.

Section sorted_items_facts.
Implicit Types (d : list (Z * list nat)) (item : Z * list nat).

Lemma elem_of_insert_item item d x :
  x ∈ insert_item item d ↔ x = item ∨ x ∈ d.
Proof.
  induction d as [|item' d IH]; simpl.
  - rewrite list_elem_of_singleton, elem_of_nil. tauto.
  - destruct (fst item <=? fst item').
    + by rewrite elem_of_cons.
    + rewrite !elem_of_cons, IH. tauto.
Qed.

Lemma elem_of_sorted_items d x : x ∈ sorted_items d ↔ x ∈ d.
Proof.
  unfold sorted_items. induction d as [|item d IH]; simpl; [done|].
  by rewrite elem_of_insert_item, IH, elem_of_cons.
Qed.

Lemma insert_item_sorted item d :
  item.1 ∉ d.*1 →
  StronglySorted Z.lt d.*1 →
  StronglySorted Z.lt (insert_item item d).*1.
Proof.
  induction d as [|item' d IH]; intros Hfresh Hsorted.
  { repeat constructor. }
  rewrite fmap_cons in Hfresh, Hsorted.
  apply not_elem_of_cons in Hfresh as [Hne Hfresh].
  apply StronglySorted_inv in Hsorted as [Hsorted Hall].
  cbn [insert_item]. destruct (Z.leb_spec (fst item) (fst item')) as [Hle|Hgt].
  - rewrite !fmap_cons. constructor; [by constructor|].
    constructor; [lia|]. eapply Forall_impl; [exact Hall|]. simpl. lia.
  - rewrite fmap_cons. constructor; [by apply IH|].
    apply Forall_forall.
    intros k (x & -> & [->|Hx]%elem_of_insert_item)%list_elem_of_fmap; [lia|].
    rewrite Forall_forall in Hall. apply Hall, list_elem_of_fmap. eauto.
Qed.

Lemma sorted_items_sorted d :
  NoDup d.*1 → StronglySorted Z.lt (sorted_items d).*1.
Proof.
  unfold sorted_items. induction d as [|item d IH]; intros Hd.
  { constructor. }
  rewrite fmap_cons in Hd. apply NoDup_cons in Hd as [Hfresh Hd].
  simpl. apply insert_item_sorted; [|by apply IH].
  intros (x & Hk & Hx)%list_elem_of_fmap.
  apply Hfresh, list_elem_of_fmap. exists x. split; [done|].
  by apply elem_of_sorted_items.
Qed.

(** The decoded dictionary: sorted by key, one entry per key below [noc]
    that the table holds, with the slots that hold it in increasing
    order. *)
Lemma list_to_dict_sorted (noc : Z) (l : list Z) :
  StronglySorted Z.lt (list_to_dict noc l).*1.
Proof.
  apply sorted_items_sorted, NoDup_keys_group_slots. constructor.
Qed.

Lemma elem_of_list_to_dict (noc : Z) (l : list Z) (k : Z) (ls : list nat) :
  (k, ls) ∈ list_to_dict noc l
  ↔ k < noc ∧ ls = positions k 0 l ∧ ls ≠ [].
Proof.
  unfold list_to_dict. rewrite elem_of_sorted_items.
  rewrite elem_of_dict_get by (apply NoDup_keys_group_slots; constructor).
  rewrite dict_get_group_slots. unfold grouped. simpl.
  destruct (decide (k < noc)) as [Hk|Hk].
  - destruct (positions k 0 l) as [|p ps]; [naive_solver|].
    split; [by intros [= <-]|]. by intros (_ & -> & _).
  - naive_solver.
Qed.
End sorted_items_facts.

Section round_trip_facts.
Variable noc : Z.
Variable depth : nat.
Implicit Types (lut : list Z) (m : channel_dict).

(** A slot that holds a key was written for a value listed under it. *)
Lemma lut_lookup_key m lut (n i : nat) (key : Z) :
  _assign_channel_indices noc depth m = inr (lut, n) →
  lut !! i = Some key → key ≠ noc →
  ∃ values val,
    (key, values) ∈ m ∧ val ∈ values_of values ∧ slot_of val = i.
Proof.
  intros (_ & _ & Hlen & Hset & Hkeep)%assign_sound Hi Hkey.
  assert (i < depth)%nat as Hlt by (rewrite <- Hlen; by eapply lookup_lt_Some).
  destruct (decide (i ∈ slots m)) as [Hin|Hout].
  - apply list_elem_of_fmap in Hin as (w & -> & Hw).
    pose proof (Hset w Hw) as Hw'. rewrite Hi in Hw'. injection Hw' as ->.
    apply elem_of_writes in Hw as (values & Hitem & Hval). eauto.
  - rewrite Hkeep in Hi by done. congruence.
Qed.

(** A key of a dictionary is bound to one value. *)
Lemma dict_value_unique m (key : Z) (v1 v2 : channel_value) :
  NoDup m.*1 → (key, v1) ∈ m → (key, v2) ∈ m → v1 = v2.
Proof.
  induction m as [|[k v] m IH]; intros Hnd H1 H2.
  { by apply elem_of_nil in H1. }
  rewrite fmap_cons in Hnd. apply NoDup_cons in Hnd as [Hfresh Hnd].
  assert (∀ v', (key, v') ∈ m → k ≠ key) as Hother.
  { intros v' Hin ->. apply Hfresh, list_elem_of_fmap. by exists (key, v'). }
  apply elem_of_cons in H1 as [[= -> ->]|H1], H2 as [[= <-]|H2];
    try done; try (by edestruct Hother).
  - by apply IH.
Qed.

Lemma writes_cons (item : Z * channel_value) m :
  writes (item :: m)
  = ((λ val, (item.1, val)) <$> values_of item.2) ++ writes m.
Proof. reflexivity. Qed.

Lemma writes_app m1 m2 : writes (m1 ++ m2) = writes m1 ++ writes m2.
Proof. unfold writes. apply bind_app. Qed.

Lemma NoDup_values m (key : Z) (values : channel_value) :
  NoDup (slots m) → (key, values) ∈ m → NoDup (values_of values).
Proof.
  intros Hnd (m1 & m2 & ->)%list_elem_of_split.
  unfold slots in Hnd.
  change ((key, values) :: m2) with ([(key, values)] ++ m2) in Hnd.
  rewrite !writes_app, !fmap_app in Hnd.
  apply NoDup_app in Hnd as (_ & _ & Hnd).
  apply NoDup_app in Hnd as (Hnd & _ & _).
  unfold writes in Hnd. simpl in Hnd. rewrite app_nil_r in Hnd.
  rewrite <- list_fmap_compose in Hnd. by apply NoDup_fmap_1 in Hnd.
Qed.

Lemma slot_of_small (val : Z) :
  0 ≤ val < 64 → Z.of_nat (slot_of val) = val.
Proof.
  intros Hval. unfold slot_of. change 63 with (Z.ones 6).
  rewrite Z.land_ones, Z.mod_small by (done || lia). lia.
Qed.

(** The slots that hold a key are the values listed under it, when these
    are slot indices themselves. *)
Lemma positions_values m lut (n : nat) (key : Z) (values : channel_value) :
  NoDup m.*1 →
  _assign_channel_indices noc depth m = inr (lut, n) →
  (key, values) ∈ m →
  (∀ val, val ∈ values_of values → 0 ≤ val < 64) →
  Z.of_nat <$> positions key 0 lut ≡ₚ values_of values.
Proof.
  intros Hkeys Hrun Hitem Hsmall.
  pose proof (assign_sound _ _ _ _ _ Hrun)
    as ([_ Hitems _ Hnd] & _ & Hlen & Hset & Hkeep).
  assert (key ≠ noc) as Hkey.
  { rewrite Forall_forall in Hitems.
    destruct (Hitems _ Hitem) as [? _]. simpl in *. lia. }
  apply NoDup_Permutation.
  - apply NoDup_fmap_2; [apply _|apply NoDup_positions].
  - by eapply NoDup_values.
  - intros z. rewrite list_elem_of_fmap. split.
    + intros (i & -> & Hi%positions_lookup).
      destruct (lut_lookup_key _ _ _ _ _ Hrun Hi Hkey)
        as (values' & val & Hitem' & Hval & <-).
      assert (values' = values) as ->.
      { by eapply dict_value_unique. }
      by rewrite slot_of_small by auto.
    + intros Hz. exists (slot_of z). split; [by rewrite slot_of_small by auto|].
      apply positions_lookup, (Hset (key, z)), elem_of_writes. eauto.
Qed.
End round_trip_facts.

(** C7, as stated, fails on two kinds of accepted dictionaries whose keys
    are dense and whose values are all in [[0, number_of_channels)]. A key
    bound to an empty list leaves no trace in the table, so it is missing
    from the decoded dictionary; and on a counter with more than 64
    physical channels the value [70] is stored in slot [6] and reads back
    as [6]. *)
Lemma round_trip_not_exact :
  let st := fresh 10 8 64 1 in
  let m := [(0, VList [])] in
  let st' := fresh 10 100 64 1 in
  let m' := [(0, VInt 70)] in
  (acceptable 8 64 m
   ∧ (∀ w, w ∈ writes m → 0 ≤ w.2 < number_of_channels st)
   ∧ set_lut_channels (Some m) st
     = Returned (configured st (replicate 64 8) 1) tt
   ∧ get_lut_channels (configured st (replicate 64 8) 1) (replicate 64 8) = [])
  ∧ (acceptable 100 64 m'
     ∧ (∀ w, w ∈ writes m' → 0 ≤ w.2 < number_of_channels st')
     ∧ set_lut_channels (Some m') st'
       = Returned (configured st' (<[6%nat:=0]> (replicate 64 100)) 1) tt
     ∧ get_lut_channels (configured st' (<[6%nat:=0]> (replicate 64 100)) 1)
         (<[6%nat:=0]> (replicate 64 100))
       = [(0, [6%nat])]).
Proof.
  split.
  - split; [|split; [|split; reflexivity]].
    + split; repeat constructor; simpl; (lia || done).
    + intros w Hw. by apply elem_of_nil in Hw.
  - split; [|split; [|split; reflexivity]].
    + split; repeat constructor; simpl; try (lia || done).
      intros Hin. by apply elem_of_nil in Hin.
    + intros w [->|Hw%elem_of_nil]%elem_of_cons; [simpl; lia|done].
Qed.

(** C7, amended. Reading back the table that [set_lut_channels] has
    written returns the dictionary it was built from, up to the order of
    each channel's slot list, for every dictionary accepted by the build in
    which each key lists at least one physical value and each value is a
    slot index in [[0, 64)], left unchanged by the mask [0x3F]; an [int]
    value reads back as a list of one slot. The decoded dictionary is
    sorted by key, holds for each key of the input a reordering of its
    values, and holds nothing else. *)
Theorem lut_round_trip (st : Counter) (m : channel_dict) (lut : list Z)
    (n : nat) :
  NoDup m.*1 →
  (∀ key values, (key, values) ∈ m →
     values_of values ≠ []
     ∧ ∀ val, val ∈ values_of values → 0 ≤ val < 64) →
  set_lut_channels (Some m) st = Returned (configured st lut n) tt →
  let d := get_lut_channels (configured st lut n) lut in
  StronglySorted Z.lt d.*1
  ∧ (∀ key values, (key, values) ∈ m →
       ∃ ls, (key, ls) ∈ d ∧ Z.of_nat <$> ls ≡ₚ values_of values)
  ∧ (∀ key ls, (key, ls) ∈ d →
       ∃ values, (key, values) ∈ m ∧ Z.of_nat <$> ls ≡ₚ values_of values).
Proof.
  intros Hkeys Hvalid Hset d. subst d. unfold get_lut_channels. simpl.
  assert (_assign_channel_indices (number_of_channels st)
            (lut_channels_depth st) m = inr (lut, n)) as Hrun.
  { destruct (_assign_channel_indices _ _ m) as [e|[lut' n']] eqn:Hrun.
    { by rewrite (set_lut_channels_inl _ _ _ Hrun) in Hset. }
    rewrite (set_lut_channels_inr _ _ _ _ Hrun) in Hset.
    unfold configured in Hset. injection Hset as Hn _ Hlog.
    apply app_inv_head in Hlog. injection Hlog as _ Hlut. by subst. }
  pose proof (assign_sound _ _ _ _ _ Hrun) as ([_ Hitems _ _] & _ & _ & Hw & _).
  split; [apply list_to_dict_sorted|]. split.
  - intros key values Hitem. destruct (Hvalid _ _ Hitem) as [Hne Hsmall].
    pose proof (positions_values _ _ _ _ _ _ _ Hkeys Hrun Hitem Hsmall) as Hperm.
    exists (positions key 0 lut). split; [|done].
    apply elem_of_list_to_dict. split; [|split; [done|]].
    + rewrite Forall_forall in Hitems. by destruct (Hitems _ Hitem) as [[_ ?] _].
    + intros Hnil. rewrite Hnil in Hperm. simpl in Hperm.
      by apply Permutation_nil in Hperm.
  - intros key ls (Hkey & -> & Hne)%elem_of_list_to_dict.
    destruct (positions key 0 lut) as [|i ps] eqn:Hps; [done|].
    assert (lut !! i = Some key) as Hi.
    { apply positions_lookup. rewrite Hps. apply list_elem_of_here. }
    destruct (lut_lookup_key _ _ _ _ _ _ _ Hrun Hi ltac:(lia))
      as (values & val & Hitem & _ & _).
    exists values. split; [done|]. rewrite <- Hps.
    eapply positions_values; [done|exact Hrun|exact Hitem|].
    by destruct (Hvalid _ _ Hitem).
Qed.

(** A round trip with keys given out of order. *)
Lemma lut_round_trip_witness :
  let m := [(1, VList [1; 2; 3]); (0, VList [7; 6]); (2, VInt 5)] in
  let lut := <[5%nat:=2]> (<[6%nat:=0]> (<[7%nat:=0]> (<[3%nat:=1]>
               (<[2%nat:=1]> (<[1%nat:=1]> (replicate 64 8)))))) in
  let d := get_lut_channels (configured (fresh 10 8 64 1) lut 3) lut in
  StronglySorted Z.lt d.*1
  ∧ (∀ key values, (key, values) ∈ m →
       ∃ ls, (key, ls) ∈ d ∧ Z.of_nat <$> ls ≡ₚ values_of values)
  ∧ (∀ key ls, (key, ls) ∈ d →
       ∃ values, (key, values) ∈ m ∧ Z.of_nat <$> ls ≡ₚ values_of values).
Proof.
  apply (lut_round_trip (fresh 10 8 64 1)
           [(1, VList [1; 2; 3]); (0, VList [7; 6]); (2, VInt 5)]).
  - apply (bool_decide_unpack _). vm_compute. exact I.
  - intros key values Hitem.
    repeat (apply elem_of_cons in Hitem as [[= -> ->]|Hitem]);
      [| | |by apply elem_of_nil in Hitem];
      (split; [done|]); simpl; intros val Hval;
      repeat (apply elem_of_cons in Hval as [->|Hval]; [lia|]);
      by apply elem_of_nil in Hval.
  - reflexivity.
Defined.

Example round_trip_example :
  get_lut_channels (fresh 10 8 64 1)
    (<[5%nat:=2]> (<[6%nat:=0]> (<[7%nat:=0]> (<[3%nat:=1]>
       (<[2%nat:=1]> (<[1%nat:=1]> (replicate 64 8)))))))
  = [(0, [6; 7]%nat); (1, [1; 2; 3]%nat); (2, [5]%nat)].
Proof. reflexivity. Qed.

(** The build, run step by step. *)
Section lut_more_facts.
Variable noc : Z.
Variable depth : nat.
Implicit Types (lut rl : list Z) (m : channel_dict) (occ : list nat).

Lemma slot_of_mod (val : Z) : Z.of_nat (slot_of val) = val mod 64.
Proof.
  unfold slot_of. change 63 with (Z.ones 6). rewrite Z.land_ones by lia.
  pose proof (Z.mod_pos_bound val 64). change (2 ^ 6) with 64. lia.
Qed.

Lemma slot_of_reduce (val : Z) : slot_of (val mod 64) = slot_of val.
Proof.
  apply Nat2Z.inj. rewrite !slot_of_mod. by rewrite Z.mod_mod by lia.
Qed.

Lemma slot_of_lt (val : Z) : (slot_of val < 64)%nat.
Proof.
  pose proof (slot_of_mod val). pose proof (Z.mod_pos_bound val 64). lia.
Qed.

Lemma process_value_reduce (k : Z) rl (val : Z) :
  process_value noc k rl (val mod 64) = process_value noc k rl val.
Proof. unfold process_value. by rewrite slot_of_reduce. Qed.

Lemma process_item_reduce rl (item : Z * channel_value) :
  process_item noc rl (item.1, reduce_value item.2) = process_item noc rl item.
Proof.
  destruct item as [k [val|vals|]]; simpl; [|clear|done].
  - by rewrite process_value_reduce.
  - destruct ((0 <=? k) && (k <? noc)); [|done].
    revert rl. induction vals as [|v vals IH]; intros rl; [done|].
    cbn [fmap list_fmap for_each]. rewrite process_value_reduce.
    destruct (process_value noc k rl v); simpl; [done|apply IH].
Qed.

Lemma assign_reduce m :
  _assign_channel_indices noc depth (reduce_values m)
  = _assign_channel_indices noc depth m.
Proof.
  unfold _assign_channel_indices, reduce_values.
  rewrite length_fmap.
  assert (∀ n, forallb (λ item : Z * channel_value,
                          (0 <=? item.1) && (item.1 <? n))
                 ((λ item, (item.1, reduce_value item.2)) <$> m)
               = forallb (λ item : Z * channel_value,
                            (0 <=? item.1) && (item.1 <? n)) m) as Hkeys.
  { intros n. induction m as [|item m IH]; [done|]. simpl. f_equal. exact IH. }
  rewrite (Hkeys (Z.of_nat (length m))). clear Hkeys.
  destruct (forallb _ m); [|done]. f_equal.
  generalize (replicate depth noc).
  induction m as [|item m IH]; intros rl; [done|].
  cbn [fmap list_fmap for_each]. rewrite process_item_reduce.
  destruct (process_item noc rl item); simpl; [done|apply IH].
Qed.

(** The run of [process_value] over the values of one key, with [occ] the
    slots taken before it. *)
Lemma values_run (k : Z) (vals : list Z) : ∀ rl occ,
  length rl = depth →
  (∀ i x, rl !! i = Some x → x ≠ noc → i ∈ occ) →
  match for_each (process_value noc k) rl vals with
  | inr rl' =>
      length rl' = depth
      ∧ ∀ i x, rl' !! i = Some x → x ≠ noc → i ∈ occ ++ (slot_of <$> vals)
  | inl IndexError => ∃ val, val ∈ vals ∧ (depth ≤ slot_of val)%nat
  | inl AssertionError => ¬ NoDup (occ ++ (slot_of <$> vals))
  | inl _ => False
  end.
Proof.
  induction vals as [|v vals IH]; intros rl occ Hlen Hocc.
  { simpl. split; [done|]. intros i x Hi Hx. rewrite app_nil_r. eauto. }
  cbn [for_each]. unfold process_value at 1.
  destruct (rl !! slot_of v) as [x|] eqn:Hv; simpl.
  - destruct (Z.eqb_spec x noc) as [->|Hne]; simpl.
    + specialize (IH (<[slot_of v := k]> rl) (occ ++ [slot_of v])).
      rewrite <- app_assoc in IH. simpl in IH.
      assert (∀ i y, <[slot_of v:=k]> rl !! i = Some y → y ≠ noc →
                i ∈ occ ++ [slot_of v]) as Hocc'.
      { intros i y Hi Hy. apply elem_of_app.
        destruct (decide (i = slot_of v)) as [->|Hi'].
        - right. apply list_elem_of_here.
        - left. rewrite list_lookup_insert_ne in Hi by done. eauto. }
      specialize (IH ltac:(by rewrite length_insert) Hocc').
      destruct (for_each (process_value noc k) (<[slot_of v:=k]> rl) vals)
        as [[]|rl']; try done.
      destruct IH as (val & Hval & Hdepth). exists val.
      split; [by apply list_elem_of_further|done].
    + intros Hnd. apply NoDup_app in Hnd as (_ & Hdisj & _).
      apply (Hdisj (slot_of v)); [eauto|apply list_elem_of_here].
  - exists v. split; [apply list_elem_of_here|].
    rewrite <- Hlen. by apply lookup_ge_None.
Qed.

Lemma process_item_run (k : Z) (values : channel_value) rl :
  0 ≤ k < noc → values ≠ VOther →
  process_item noc rl (k, values)
  = for_each (process_value noc k) rl (values_of values).
Proof.
  intros Hk Hv. simpl.
  destruct (Z.leb_spec 0 k), (Z.ltb_spec k noc); try lia. simpl.
  destruct values; simpl; [|done|done].
  by destruct (process_value noc k rl val).
Qed.

Lemma process_item_bad_key (k : Z) (values : channel_value) rl :
  ¬ (0 ≤ k < noc) → process_item noc rl (k, values) = inl AssertionError.
Proof.
  intros Hk. simpl.
  destruct (Z.leb_spec 0 k), (Z.ltb_spec k noc); simpl; (done || lia).
Qed.

Lemma process_item_other (k : Z) rl :
  0 ≤ k < noc → process_item noc rl (k, VOther) = inl ValueError.
Proof.
  intros Hk. simpl.
  destruct (Z.leb_spec 0 k), (Z.ltb_spec k noc); simpl; (done || lia).
Qed.

(** The run of [process_item] over a dictionary. *)
Lemma items_run m : ∀ rl occ,
  length rl = depth →
  (∀ i x, rl !! i = Some x → x ≠ noc → i ∈ occ) →
  match for_each (process_item noc) rl m with
  | inr rl' =>
      length rl' = depth
      ∧ ∀ i x, rl' !! i = Some x → x ≠ noc → i ∈ occ ++ slots m
  | inl IndexError => ∃ w, w ∈ writes m ∧ (depth ≤ slot_of w.2)%nat
  | inl AssertionError =>
      (∃ item, item ∈ m ∧ ¬ (0 ≤ item.1 < noc)) ∨ ¬ NoDup (occ ++ slots m)
  | inl ValueError => ∃ item, item ∈ m ∧ item.2 = VOther
  | inl ZeroDivisionError => False
  end.
Proof.
  induction m as [|[k values] m IH]; intros rl occ Hlen Hocc.
  { simpl. split; [done|]. intros i x Hi Hx. rewrite app_nil_r. eauto. }
  assert (slots ((k, values) :: m) = (slot_of <$> values_of values) ++ slots m)
    as Hslots.
  { unfold slots. rewrite writes_cons, fmap_app. f_equal.
    by rewrite <- list_fmap_compose. }
  cbn [for_each].
  destruct (decide (0 ≤ k < noc)) as [Hk|Hk]; cycle 1.
  { rewrite process_item_bad_key by done. simpl. left.
    exists (k, values). split; [apply list_elem_of_here|done]. }
  assert (values = VOther ∨ values ≠ VOther) as [->|Hv]
    by (destruct values; by (left + right)).
  { rewrite process_item_other by done. simpl.
    exists (k, VOther). split; [apply list_elem_of_here|done]. }
  rewrite process_item_run by done.
  pose proof (values_run k (values_of values) rl occ Hlen Hocc) as Hvals.
  destruct (for_each (process_value noc k) rl (values_of values))
    as [e|rl1]; simpl.
  - destruct e; try done.
    + right. rewrite Hslots, app_assoc. intros Hnd.
      by apply NoDup_app in Hnd as (? & _ & _).
    + destruct Hvals as (val & Hval & Hdepth). exists (k, val).
      split; [|done].
      apply (elem_of_writes ((k, values) :: m) (k, val)). exists values.
      split; [apply list_elem_of_here|done].
  - destruct Hvals as [Hlen1 Hocc1].
    specialize (IH rl1 (occ ++ (slot_of <$> values_of values)) Hlen1 Hocc1).
    rewrite Hslots, app_assoc.
    destruct (for_each (process_item noc) rl1 m) as [e|rl2]; [|done].
    destruct e; try done.
    + destruct IH as (item & Hitem & Hother). exists item.
      split; [by apply list_elem_of_further|done].
    + destruct IH as [(item & Hitem & Hkey)|Hnd]; [left|by right].
      exists item. split; [by apply list_elem_of_further|done].
    + destruct IH as (w & Hw & Hdepth). exists w. split; [|done].
      apply elem_of_writes in Hw as (vs & Hin & Hvs).
      apply (elem_of_writes ((k, values) :: m) w). exists vs.
      split; [by apply list_elem_of_further|done].
Qed.
End lut_more_facts.

Section default_facts.
Variable noc : Z.
Variable depth : nat.

Lemma writes_default_from (l : list nat) :
  writes (map (λ i : nat, (Z.of_nat i, VInt (Z.of_nat i + 1))) l)
  = (λ i : nat, (Z.of_nat i, Z.of_nat i + 1)) <$> l.
Proof.
  induction l as [|i l IH]; [done|].
  simpl map. rewrite writes_cons, IH. reflexivity.
Qed.

Lemma lookup_map {A B} (f : A → B) (l : list A) (i : nat) :
  map f l !! i = f <$> (l !! i).
Proof. revert i. induction l; intros [|i]; simpl; auto. Qed.

Lemma slots_default :
  0 ≤ noc < 64 → slots (default_channels noc) = seq 1 (Z.to_nat noc).
Proof.
  intros Hnoc. unfold slots, default_channels. rewrite writes_default_from.
  rewrite <- list_fmap_compose, <- fmap_S_seq.
  apply list_fmap_ext. intros j i Hi%lookup_seq. simpl.
  apply Nat2Z.inj. rewrite slot_of_small; lia.
Qed.

Lemma default_channels_acceptable :
  0 ≤ noc < 64 → (Z.to_nat noc < depth)%nat →
  acceptable noc depth (default_channels noc).
Proof.
  intros Hnoc Hdepth.
  assert (∀ bound, Z.of_nat (Z.to_nat noc) ≤ bound →
            Forall (λ item : Z * channel_value, 0 ≤ item.1 < bound)
              (default_channels noc)) as Hkeys.
  { intros bound Hb. apply Forall_forall. intros item Hin.
    apply list_elem_of_In, in_map_iff in Hin as (i & <- & Hi).
    apply in_seq in Hi. simpl. lia. }
  split.
  - apply Hkeys. unfold default_channels. rewrite length_map, length_seq. lia.
  - apply Forall_forall. intros item Hin.
    apply list_elem_of_In, in_map_iff in Hin as (i & <- & Hi).
    apply in_seq in Hi. split; simpl; [lia|done].
  - rewrite slots_default by done. apply Forall_forall.
    intros i Hi%elem_of_seq. lia.
  - rewrite slots_default by done. apply NoDup_seq.
Qed.

Lemma slots_default_from :
  slots (default_channels noc)
  = (λ i : nat, slot_of (Z.of_nat i + 1)) <$> seq 0 (Z.to_nat noc).
Proof.
  unfold slots, default_channels. rewrite writes_default_from.
  by rewrite <- list_fmap_compose.
Qed.

(** The exceptions that the build can end with on the default dictionary:
    its keys pass both checks and its values are ints, so only a slot past
    the table or a slot taken twice is left. *)
Lemma default_channels_raises (e : exn) :
  _assign_channel_indices noc depth (default_channels noc) = inl e →
  (e = IndexError
   ∧ ∃ i : nat, (i < Z.to_nat noc)%nat ∧ (depth ≤ slot_of (Z.of_nat i + 1))%nat)
  ∨ (e = AssertionError ∧ ¬ NoDup (slots (default_channels noc))).
Proof.
  assert (∀ item, item ∈ default_channels noc →
            ∃ i : nat, (i < Z.to_nat noc)%nat
                       ∧ item = (Z.of_nat i, VInt (Z.of_nat i + 1))) as Hitems.
  { intros item Hin.
    apply list_elem_of_In, in_map_iff in Hin as (i & <- & Hi).
    apply in_seq in Hi. exists i. split; [lia|done]. }
  unfold _assign_channel_indices.
  destruct (forallb _ (default_channels noc)) eqn:Hkeys; cycle 1.
  { exfalso. apply not_true_iff_false in Hkeys. apply Hkeys, forallb_keys.
    apply Forall_forall. intros item (i & Hi & ->)%Hitems. simpl.
    unfold default_channels. rewrite length_map, length_seq. lia. }
  pose proof (items_run noc depth (default_channels noc) (replicate depth noc) [])
    as Hrun.
  destruct (for_each (process_item noc) (replicate depth noc)
              (default_channels noc)) as [e'|rl]; [|done].
  intros [= <-]. simpl in Hrun.
  assert (match e' with
          | ValueError => ∃ item, item ∈ default_channels noc ∧ item.2 = VOther
          | AssertionError =>
              (∃ item, item ∈ default_channels noc ∧ ¬ (0 ≤ item.1 < noc))
              ∨ ¬ NoDup (slots (default_channels noc))
          | IndexError =>
              ∃ w, w ∈ writes (default_channels noc) ∧ (depth ≤ slot_of w.2)%nat
          | ZeroDivisionError => False
          end) as He.
  { apply Hrun; [apply length_replicate|].
    intros i x [-> _]%lookup_replicate. done. }
  destruct e'; try done.
  - destruct He as (item & (i & _ & ->)%Hitems & Hother). done.
  - right. split; [done|].
    destruct He as [(item & (i & Hi & ->)%Hitems & Hkey)|Hnd]; [|done].
    simpl in Hkey. lia.
  - left. split; [done|].
    destruct He as (w & (values & (i & Hi & Heq)%Hitems & Hval)%elem_of_writes
                    & Hdepth).
    injection Heq as Hw ->. simpl in Hval.
    apply list_elem_of_singleton in Hval. rewrite Hval in Hdepth. eauto.
Qed.
End default_facts.

(** C10, as stated, fails: the default dictionary is not accepted on every
    counter. With four physical channels and a table of four slots the
    value [4] of key [3] has no slot: the call raises [IndexError], the
    count of desired channels stays at [1] and nothing is written to the
    bus. With 65 physical channels the values [1] and [65] share slot [1]
    and the call raises [AssertionError]. *)
Lemma default_refused_on_shallow_table :
  let st := fresh 10 4 4 1 in
  let st' := fresh 10 65 64 1 in
  set_lut_channels None st = Raised IndexError st
  ∧ number_of_desired_channels (state_after (set_lut_channels None st)) = 1%nat
  ∧ Z.of_nat (number_of_desired_channels (state_after (set_lut_channels None st)))
    ≠ number_of_channels st
  ∧ wb_log (state_after (set_lut_channels None st)) = []
  ∧ set_lut_channels None st' = Raised AssertionError st'.
Proof. repeat split; (reflexivity || discriminate). Qed.

(** C10, amended. Without an argument, [set_lut_channels] passes to the
    build the default dictionary that binds logical channel [i] to the
    single physical value [i + 1] for every [i] below [number_of_channels].
    On a counter with fewer than 64 physical channels and a table deeper
    than their number, the call returns, the count of desired channels
    becomes [number_of_channels], and the table written to the hardware
    routes slot [i + 1] to channel [i] and every other slot to the discard
    sentinel. On a counter with fewer than 64 physical channels, at least
    one, and a table no deeper than their number, the call raises
    [IndexError] and leaves the state and the bus untouched. On a counter
    with more than 64 physical channels the call raises and leaves the
    state and the bus untouched; the exception is [AssertionError] when the
    table has 64 slots or more. *)
Theorem set_lut_channels_default (st : Counter) :
  let noc := number_of_channels st in
  let K := Z.to_nat noc in
  set_lut_channels None st = set_lut_channels (Some (default_channels noc)) st
  ∧ length (default_channels noc) = K
  ∧ (∀ i, (i < K)%nat →
       default_channels noc !! i = Some (Z.of_nat i, VInt (Z.of_nat i + 1)))
  ∧ (0 ≤ noc < 64 →
     (K < lut_channels_depth st)%nat →
     ∃ lut,
       set_lut_channels None st = Returned (configured st lut K) tt
       ∧ number_of_desired_channels (configured st lut K) = K
       ∧ length lut = lut_channels_depth st
       ∧ lut !! 0%nat = Some noc
       ∧ (∀ i, (i < K)%nat → lut !! S i = Some (Z.of_nat i))
       ∧ (∀ j, (K < j < lut_channels_depth st)%nat → lut !! j = Some noc))
  ∧ (0 < noc < 64 →
     (lut_channels_depth st ≤ K)%nat →
     set_lut_channels None st = Raised IndexError st)
  ∧ (64 < noc →
     ∃ e,
       set_lut_channels None st = Raised e st
       ∧ ((64 ≤ lut_channels_depth st)%nat → e = AssertionError)).
Proof.
  intros noc K.
  assert (length (default_channels noc) = K) as Hlen.
  { unfold default_channels. by rewrite length_map, length_seq. }
  assert (∀ i, (i < K)%nat →
            default_channels noc !! i = Some (Z.of_nat i, VInt (Z.of_nat i + 1)))
    as Hdefault.
  { intros i Hi. unfold default_channels.
    rewrite lookup_map, lookup_seq_lt by done. done. }
  split; [done|]. split; [done|]. split; [done|].
  split; [|split].
  - intros Hnoc Hdepth.
    destruct (assign_complete noc (lut_channels_depth st) (default_channels noc))
      as [lut Hrun]; [by apply default_channels_acceptable|].
    rewrite Hlen in Hrun. exists lut.
    split; [by apply (set_lut_channels_inr st (default_channels noc))|].
    split; [done|].
    apply assign_sound in Hrun as (_ & _ & Hlut & Hset & Hkeep).
    rewrite slots_default in Hkeep by done.
    split; [done|]. split; [|split].
    + apply Hkeep; [lia|]. rewrite elem_of_seq. lia.
    + intros i Hi.
      assert (slot_of (Z.of_nat i + 1) = S i) as <-.
      { apply Nat2Z.inj. rewrite slot_of_small; lia. }
      apply (Hset (Z.of_nat i, Z.of_nat i + 1)), elem_of_writes.
      exists (VInt (Z.of_nat i + 1)). split; [|apply list_elem_of_here].
      eapply list_elem_of_lookup_2, Hdefault, Hi.
    + intros j Hj. apply Hkeep; [lia|]. rewrite elem_of_seq. fold K. lia.
  - intros Hnoc Hdepth.
    apply (set_lut_channels_inl st (default_channels noc)). fold noc.
    destruct (_assign_channel_indices noc (lut_channels_depth st)
                (default_channels noc)) as [e|[lut n]] eqn:Hrun.
    + apply default_channels_raises in Hrun as [[-> _]|[_ Hnd]]; [done|].
      exfalso. apply Hnd. rewrite slots_default by lia. apply NoDup_seq.
    + apply assign_sound in Hrun as [[_ _ Hrange _] _].
      rewrite slots_default, Forall_forall in Hrange by lia.
      specialize (Hrange K). rewrite elem_of_seq in Hrange. fold K in Hrange.
      lia.
  - intros Hnoc.
    destruct (_assign_channel_indices noc (lut_channels_depth st)
                (default_channels noc)) as [e|[lut n]] eqn:Hrun.
    + exists e. split; [by apply (set_lut_channels_inl st (default_channels noc))|].
      intros Hdepth.
      apply default_channels_raises in Hrun as [[_ (i & _ & Hi)]|[-> _]]; [|done].
      pose proof (slot_of_lt (Z.of_nat i + 1)). lia.
    + apply assign_sound in Hrun as [[_ _ _ Hnd] _]. exfalso.
      rewrite slots_default_from in Hnd.
      assert (0%nat = 64%nat) as Heq; [|done].
      eapply NoDup_lookup; [exact Hnd| |].
      * rewrite list_lookup_fmap, lookup_seq_lt by lia. reflexivity.
      * rewrite list_lookup_fmap, lookup_seq_lt by lia. reflexivity.
Qed.

(** The default table of a counter with four physical channels, the same
    counter with a table of four slots, and a counter with 65 physical
    channels. *)
Lemma set_lut_channels_default_witness :
  (let st := fresh 10 4 64 1 in
   ∃ lut,
     set_lut_channels None st = Returned (configured st lut 4) tt
     ∧ number_of_desired_channels (configured st lut 4) = 4%nat
     ∧ length lut = 64%nat
     ∧ lut !! 0%nat = Some 4
     ∧ (∀ i, (i < 4)%nat → lut !! S i = Some (Z.of_nat i))
     ∧ (∀ j, (4 < j < 64)%nat → lut !! j = Some 4))
  ∧ set_lut_channels None (fresh 10 4 4 1) = Raised IndexError (fresh 10 4 4 1)
  ∧ (∃ e,
       set_lut_channels None (fresh 10 65 64 1) = Raised e (fresh 10 65 64 1)
       ∧ ((64 ≤ 64)%nat → e = AssertionError)).
Proof.
  split; [|split].
  - refine (proj1 (proj2 (proj2 (proj2
              (set_lut_channels_default (fresh 10 4 64 1))))) _ _).
    + simpl. lia.
    + simpl. lia.
  - refine (proj1 (proj2 (proj2 (proj2 (proj2
              (set_lut_channels_default (fresh 10 4 4 1)))))) _ _).
    + simpl. lia.
    + simpl. lia.
  - refine (proj2 (proj2 (proj2 (proj2 (proj2
              (set_lut_channels_default (fresh 10 65 64 1)))))) _).
    simpl. lia.
Defined.

Example default_example :
  set_lut_channels None (fresh 10 4 64 1)
  = Returned
      (configured (fresh 10 4 64 1)
         (<[4%nat:=3]> (<[3%nat:=2]> (<[2%nat:=1]> (<[1%nat:=0]>
            (replicate 64 4))))) 4) tt.
Proof. reflexivity. Qed.

(** * Further properties *)

(** ** Window size *)

Section window_facts.
Implicit Types (st : Counter) (w lsb msb : Z).

Lemma last_write_app addr (log : list wb_op) (a v : Z) :
  last_write addr (log ++ [WbWrite a v])
  = if a =? addr then Some v else last_write addr log.
Proof.
  induction log as [|op log IH]; simpl; [done|].
  rewrite IH. destruct (a =? addr); [done|].
  by destruct (last_write addr log).
Qed.

Lemma window_words w :
  Z.land w 0xFFFFFFFF = w mod 2 ^ 32
  ∧ Z.land (Z.shiftr w 32) 0xFFFFFFFF = (w / 2 ^ 32) mod 2 ^ 32.
Proof.
  change 0xFFFFFFFF with (Z.ones 32).
  by rewrite !Z.land_ones, Z.shiftr_div_pow2 by lia.
Qed.

Lemma window_join w :
  get_window_size (w mod 2 ^ 32) ((w / 2 ^ 32) mod 2 ^ 32) = w mod 2 ^ 64.
Proof.
  unfold get_window_size. rewrite Z.shiftl_mul_pow2 by lia.
  change (2 ^ 64) with (2 ^ 32 * 2 ^ 32).
  rewrite Z.rem_mul_r by lia. lia.
Qed.

(** X1. [set_window_size] writes the low and the high 32 bits of the window
    size to the LSB and MSB registers, and [get_window_size] on the words
    these registers then hold gives the window size back modulo [2^64]:
    exactly, for every size that fits 64 bits. *)
Theorem window_size_round_trip (w : Z) (st : Counter) :
  let st' := set_window_size w st in
  let lsb := w mod 2 ^ 32 in
  let msb := (w / 2 ^ 32) mod 2 ^ 32 in
  wb_log st'
  = wb_log st ++ [WbWrite (base_address st + Reg.WINDOW_SIZE_LSB) lsb;
                  WbWrite (base_address st + Reg.WINDOW_SIZE_MSB) msb]
  ∧ last_write (base_address st + Reg.WINDOW_SIZE_LSB) (wb_log st') = Some lsb
  ∧ last_write (base_address st + Reg.WINDOW_SIZE_MSB) (wb_log st') = Some msb
  ∧ is_uint32 lsb ∧ is_uint32 msb
  ∧ get_window_size lsb msb = w mod 2 ^ 64
  ∧ (0 ≤ w < 2 ^ 64 → get_window_size lsb msb = w).
Proof.
  intros st' lsb msb.
  assert (wb_log st'
          = wb_log st ++ [WbWrite (base_address st + Reg.WINDOW_SIZE_LSB) lsb;
                          WbWrite (base_address st + Reg.WINDOW_SIZE_MSB) msb])
    as Hlog.
  { subst st' lsb msb. unfold set_window_size, wb_write. simpl.
    destruct (window_words w) as [-> ->]. by rewrite <- app_assoc. }
  split; [done|].
  assert (wb_log st'
          = (wb_log st ++ [WbWrite (base_address st + Reg.WINDOW_SIZE_LSB) lsb])
            ++ [WbWrite (base_address st + Reg.WINDOW_SIZE_MSB) msb]) as Hlog'.
  { by rewrite Hlog, <- app_assoc. }
  split; [|split].
  - rewrite Hlog', !last_write_app. unfold Reg.WINDOW_SIZE_MSB, Reg.WINDOW_SIZE_LSB.
    destruct (Z.eqb_spec (base_address st + 28) (base_address st + 24)); [lia|].
    by rewrite Z.eqb_refl.
  - rewrite Hlog', last_write_app. by rewrite Z.eqb_refl.
  - subst lsb msb. unfold is_uint32.
    pose proof (Z.mod_pos_bound w (2 ^ 32)).
    pose proof (Z.mod_pos_bound (w / 2 ^ 32) (2 ^ 32)).
    repeat split; try lia.
    + apply window_join.
    + intros Hw. rewrite window_join. apply Z.mod_small. lia.
Qed.

(** The default window, one millisecond in picoseconds, is read back as it
    was set. *)
Lemma window_size_round_trip_witness :
  get_window_size (3000000000 mod 2 ^ 32) ((3000000000 / 2 ^ 32) mod 2 ^ 32)
  = 3000000000.
Proof.
  refine (proj2 (proj2 (proj2 (proj2 (proj2 (proj2
            (window_size_round_trip 3000000000 (fresh 10 8 64 1))))))) _).
  lia.
Defined.

(** X2. In the other direction, the window size that [get_window_size]
    makes of two 32-bit register words fits 64 bits, and setting it writes
    these two words back. *)
Theorem window_size_words_back (lsb msb : Z) (st : Counter) :
  is_uint32 lsb → is_uint32 msb →
  0 ≤ get_window_size lsb msb < 2 ^ 64
  ∧ wb_log (set_window_size (get_window_size lsb msb) st)
    = wb_log st ++ [WbWrite (base_address st + Reg.WINDOW_SIZE_LSB) lsb;
                    WbWrite (base_address st + Reg.WINDOW_SIZE_MSB) msb].
Proof.
  unfold is_uint32. intros Hl Hm.
  assert (get_window_size lsb msb = lsb + msb * 2 ^ 32) as Hw.
  { unfold get_window_size. by rewrite Z.shiftl_mul_pow2 by lia. }
  split; [rewrite Hw; lia|].
  unfold set_window_size, wb_write. simpl.
  destruct (window_words (get_window_size lsb msb)) as [-> ->].
  rewrite Hw, <- app_assoc.
  assert ((lsb + msb * 2 ^ 32) mod 2 ^ 32 = lsb) as ->.
  { rewrite Z.mod_add by lia. apply Z.mod_small. lia. }
  assert (((lsb + msb * 2 ^ 32) / 2 ^ 32) mod 2 ^ 32 = msb) as ->.
  { rewrite Z.div_add, Z.div_small by lia. apply Z.mod_small. lia. }
  reflexivity.
Qed.

Lemma window_size_words_back_witness :
  0 ≤ get_window_size 0xB2D05E00 0 < 2 ^ 64
  ∧ wb_log (set_window_size (get_window_size 0xB2D05E00 0) (fresh 10 8 64 1))
    = [WbWrite (0x80006500 + Reg.WINDOW_SIZE_LSB) 0xB2D05E00;
       WbWrite (0x80006500 + Reg.WINDOW_SIZE_MSB) 0].
Proof.
  apply (window_size_words_back 0xB2D05E00 0 (fresh 10 8 64 1));
    unfold is_uint32; lia.
Defined.
End window_facts.

(** ** Burst reads *)

Section burst_facts.
Implicit Types (n s q : nat) (plan : list (nat * nat)).

Lemma ceil_bounds n s :
  (0 < s)%nat →
  let q := ((n + s - 1) / s)%nat in
  (n ≤ q * s)%nat ∧ (q * s < n + s)%nat.
Proof.
  intros Hs q. subst q.
  pose proof (Nat.div_mod_eq (n + s - 1) s) as Hdm.
  pose proof (Nat.mod_upper_bound (n + s - 1) s ltac:(lia)). nia.
Qed.

(** X3. The read length that [__init__] chooses never exceeds the FIFO
    depth and misses it by less than one burst; it is the FIFO depth itself
    when that fits one burst, and otherwise a positive multiple of the
    longest burst. *)
Theorem read_length_of_bounds (fifo_depth max_burst : nat) :
  (0 < max_burst)%nat →
  ∃ read_length,
    read_length_of fifo_depth max_burst = inr read_length
    ∧ (read_length ≤ fifo_depth)%nat
    ∧ (fifo_depth - read_length < max_burst)%nat
    ∧ ((fifo_depth ≤ max_burst)%nat → read_length = fifo_depth)
    ∧ ((max_burst < fifo_depth)%nat →
       ∃ k, (0 < k)%nat ∧ read_length = (k * max_burst)%nat).
Proof.
  intros Hmax. unfold read_length_of.
  destruct (decide (fifo_depth ≤ max_burst)%nat) as [Hle|Hgt].
  - exists fifo_depth. repeat split; lia.
  - destruct max_burst as [|m]; [lia|].
    set (s := S m) in *.
    pose proof (Nat.div_mod_eq fifo_depth s) as Hdm.
    pose proof (Nat.mod_upper_bound fifo_depth s ltac:(lia)) as Hr.
    exists (fifo_depth / s * s)%nat.
    split; [done|]. split; [nia|]. split; [nia|]. split; [lia|].
    intros _. exists (fifo_depth / s)%nat. split; [|done].
    destruct (fifo_depth / s)%nat eqn:E; [|lia]. nia.
Qed.

Lemma read_length_of_bounds_witness :
  ∃ read_length,
    read_length_of 1000 256 = inr read_length
    ∧ (read_length ≤ 1000)%nat
    ∧ (1000 - read_length < 256)%nat
    ∧ ((1000 ≤ 256)%nat → read_length = 1000%nat)
    ∧ ((256 < 1000)%nat → ∃ k, (0 < k)%nat ∧ read_length = (k * 256)%nat).
Proof. apply (read_length_of_bounds 1000 256). lia. Defined.

Lemma chunk_sizes_sum n s (j : nat) :
  (0 < s)%nat → (j ≤ (n + s - 1) / s)%nat →
  sum_list ((λ i, s `min` (n - i * s))%nat <$> seq 0 j) = ((j * s) `min` n)%nat.
Proof.
  intros Hs. destruct (ceil_bounds n s Hs) as [_ Hq].
  induction j as [|j IH]; intros Hj; [done|].
  rewrite seq_S, fmap_app, sum_list_with_app, IH by lia. simpl. nia.
Qed.

Lemma chunks_tile n s : ∀ (len j : nat),
  (0 < s)%nat → (j + len ≤ (n + s - 1) / s)%nat →
  tiles (j * s)
    ((λ i, (i * s, s `min` (n - i * s)))%nat <$> seq j len).
Proof.
  intros len j Hs. destruct (ceil_bounds n s Hs) as [_ Hq].
  revert j. induction len as [|len IH]; intros j Hj; [done|].
  simpl. split; [done|]. destruct len as [|len]; [done|].
  replace (j * s + s `min` (n - j * s))%nat with (S j * s)%nat by nia.
  apply IH. lia.
Qed.

Lemma chunks_facts (read_length max_burst : nat) :
  (0 < max_burst)%nat →
  ∃ plan,
    chunks read_length max_burst = inr plan
    ∧ length plan = ((read_length + max_burst - 1) / max_burst)%nat
    ∧ (∀ i c, plan !! i = Some c →
         c.1 = (i * max_burst)%nat ∧ (0 < c.2 ≤ max_burst)%nat)
    ∧ tiles 0 plan
    ∧ sum_list plan.*2 = read_length
    ∧ ((read_length `mod` max_burst)%nat = 0%nat →
       Forall (λ c, c.2 = max_burst) plan).
Proof.
  intros Hs. unfold chunks, py_range.
  destruct max_burst as [|m]; [lia|]. set (s := S m) in *.
  set (q := ((read_length + s - 1) / s)%nat).
  destruct (ceil_bounds read_length s Hs) as [Hlo Hhi]. fold q in Hlo, Hhi.
  eexists. split; [reflexivity|]. rewrite <- list_fmap_compose.
  fold s. clearbody s.
  split; [by rewrite length_fmap, length_seq|]. split; [|split; [|split]].
  - intros i c Hc. rewrite list_lookup_fmap in Hc.
    destruct (seq 0 q !! i) as [i'|] eqn:Hi; [|done].
    apply lookup_seq in Hi as [-> Hi]. injection Hc as <-. cbn [fst snd].
    assert (S i * s ≤ q * s)%nat by (apply Nat.mul_le_mono_r; lia). lia.
  - apply (chunks_tile read_length s q 0); [done|]. fold q. lia.
  - rewrite <- list_fmap_compose.
    transitivity
      (sum_list ((λ i, s `min` (read_length - i * s))%nat <$> seq 0 q)).
    { done. }
    rewrite (chunk_sizes_sum read_length s q) by (done || (fold q; lia)). lia.
  - intros Hmod. apply Forall_forall.
    intros c (i & -> & [_ Hi]%elem_of_seq)%list_elem_of_fmap. cbn [fst snd].
    pose proof (Nat.div_mod_eq read_length s) as Hdm. rewrite Hmod in Hdm.
    assert (S i * s ≤ q * s)%nat by (apply Nat.mul_le_mono_r; lia).
    assert (q ≤ read_length / s)%nat by nia.
    assert (S i * s ≤ read_length / s * s)%nat
      by (apply Nat.mul_le_mono_r; lia).
    unfold compose. cbn [fst snd]. lia.
Qed.


(** X4. For a positive longest burst, the loop of [read_data] asks for
    [ceil(read_length / max_burst)] bursts; the [i]-th starts at word
    [i * max_burst], every burst has at least one word and at most
    [max_burst], each starts where the one before it ends, and together
    they are [read_length] words. When [read_length] is a multiple of
    [max_burst], as [__init__] makes it past one burst, every burst is
    full. *)
Theorem chunks_cover (read_length max_burst : nat) :
  (0 < max_burst)%nat →
  ∃ plan,
    chunks read_length max_burst = inr plan
    ∧ length plan = ((read_length + max_burst - 1) / max_burst)%nat
    ∧ (∀ i c, plan !! i = Some c →
         c.1 = (i * max_burst)%nat ∧ (0 < c.2 ≤ max_burst)%nat)
    ∧ tiles 0 plan
    ∧ sum_list plan.*2 = read_length
    ∧ ((read_length `mod` max_burst)%nat = 0%nat →
       Forall (λ c, c.2 = max_burst) plan).
Proof. apply chunks_facts. Qed.

Lemma chunks_cover_witness :
  ∃ plan,
    chunks 10 4 = inr plan
    ∧ length plan = ((10 + 4 - 1) / 4)%nat
    ∧ (∀ i c, plan !! i = Some c →
         c.1 = (i * 4)%nat ∧ (0 < c.2 ≤ 4)%nat)
    ∧ tiles 0 plan
    ∧ sum_list plan.*2 = 10%nat
    ∧ ((10 `mod` 4)%nat = 0%nat → Forall (λ c, c.2 = 4%nat) plan).
Proof. apply (chunks_cover 10 4). lia. Defined.

Example chunks_example : chunks 10 4 = inr [(0, 4); (4, 4); (8, 2)]%nat.
Proof. reflexivity. Qed.

Lemma gather_fill (transport : nat → nat → list Z) (read_length max_burst : nat)
    plan :
  chunks read_length max_burst = inr plan →
  gather transport read_length max_burst
  = for_each (fill transport) (replicate read_length 0)
      (zip (seq 0 (length plan)) plan).
Proof.
  intros Hplan. unfold gather. rewrite Hplan. simpl.
  generalize (replicate read_length 0) (zip (seq 0 (length plan)) plan).
  intros buf steps. revert buf.
  induction steps as [|[call [ub sz]] steps IH]; intros buf; simpl; [done|].
  unfold fill at 1. simpl. destruct (np_assign_slice _ _ _ _); simpl; auto.
Qed.

(** An assignment to a chunk inside the buffer. *)
Lemma np_assign_slice_inside (pre rest data : list Z) (sz : nat) :
  (sz ≤ length rest)%nat →
  length data = sz ∨ length data = 1%nat →
  np_assign_slice (pre ++ rest) (length pre) sz data
  = inr (pre ++ stored sz data ++ drop sz rest).
Proof.
  intros Hsz Hdata. unfold np_assign_slice, stored.
  rewrite length_app.
  replace ((length pre + sz) `min` (length pre + length rest))%nat
    with (length pre + sz)%nat by lia.
  replace (length pre `min` (length pre + length rest))%nat
    with (length pre) by lia.
  replace (length pre + sz - length pre)%nat with sz by lia.
  rewrite take_app_length, drop_app, drop_ge by lia.
  replace (length pre + sz - length pre)%nat with sz by lia. simpl.
  destruct (decide (length data = sz)); [done|].
  destruct Hdata as [?|Hone]; [done|].
  by destruct data as [|x [|??]].
Qed.

Lemma np_assign_slice_refused (pre rest data : list Z) (sz : nat) :
  (sz ≤ length rest)%nat →
  length data ≠ sz → length data ≠ 1%nat →
  np_assign_slice (pre ++ rest) (length pre) sz data = inl ValueError.
Proof.
  intros Hsz Hne Hone. unfold np_assign_slice.
  rewrite length_app.
  replace ((length pre + sz) `min` (length pre + length rest))%nat
    with (length pre + sz)%nat by lia.
  replace (length pre `min` (length pre + length rest))%nat
    with (length pre) by lia.
  replace (length pre + sz - length pre)%nat with sz by lia.
  rewrite decide_False by done.
  by destruct data as [|x [|??]].
Qed.

(** The loop over a plan that tiles the rest of the buffer. *)
Lemma gather_loop (transport : nat → nat → list Z) plan :
  ∀ (call : nat) (pre rest : list Z),
    tiles (length pre) plan →
    (sum_list plan.*2 ≤ length rest)%nat →
    (∀ i c, plan !! i = Some c →
       length (transport (call + i)%nat c.2) = c.2
       ∨ length (transport (call + i)%nat c.2) = 1%nat) →
    for_each (fill transport) (pre ++ rest) (zip (seq call (length plan)) plan)
    = inr (pre ++ gathered transport call plan
           ++ drop (sum_list plan.*2) rest).
Proof.
  induction plan as [|[ub sz] plan IH]; intros call pre rest Htiles Hsum Hok.
  { simpl. by rewrite drop_0. }
  destruct Htiles as [-> Htiles].
  change (sz + sum_list plan.*2 ≤ length rest)%nat in Hsum.
  cbn [length seq zip zip_with for_each]. unfold fill at 1. cbn [fst snd].
  pose proof (Hok 0%nat (length pre, sz) eq_refl) as H0.
  rewrite Nat.add_0_r in H0. cbn [snd] in H0.
  rewrite np_assign_slice_inside by (done || lia). simpl.
  rewrite (app_assoc pre), IH.
  - unfold gathered. cbn [length seq zip zip_with fmap list_fmap concat fst snd].
    simpl. rewrite drop_drop, <- !app_assoc. done.
  - rewrite length_app.
    replace (length (stored sz (transport call sz))) with sz; [done|].
    unfold stored. case_decide; [done|by rewrite length_replicate].
  - rewrite length_drop. lia.
  - intros i c Hc. specialize (Hok (S i) c Hc).
    by replace (call + S i)%nat with (S call + i)%nat in Hok by lia.
Qed.

Lemma gather_loop_refused (transport : nat → nat → list Z) plan :
  ∀ (call j : nat) (c : nat * nat) (pre rest : list Z),
    tiles (length pre) plan →
    (sum_list plan.*2 ≤ length rest)%nat →
    plan !! j = Some c →
    (∀ i c', (i < j)%nat → plan !! i = Some c' →
       length (transport (call + i)%nat c'.2) = c'.2) →
    length (transport (call + j)%nat c.2) ≠ c.2 →
    length (transport (call + j)%nat c.2) ≠ 1%nat →
    for_each (fill transport) (pre ++ rest) (zip (seq call (length plan)) plan)
    = inl ValueError.
Proof.
  induction plan as [|[ub sz] plan IH];
    intros call j c pre rest Htiles Hsum Hj Hbefore Hne Hone; [done|].
  destruct Htiles as [-> Htiles].
  change (sz + sum_list plan.*2 ≤ length rest)%nat in Hsum.
  cbn [length seq zip zip_with for_each]. unfold fill at 1. cbn [fst snd].
  destruct j as [|j].
  - injection Hj as <-. rewrite Nat.add_0_r in Hne, Hone. cbn [snd] in *.
    by rewrite np_assign_slice_refused by (done || lia).
  - pose proof (Hbefore 0%nat (length pre, sz) ltac:(lia) eq_refl) as H0.
    rewrite Nat.add_0_r in H0. cbn [snd] in H0.
    rewrite np_assign_slice_inside; [|lia|by left]. simpl.
    rewrite (app_assoc pre).
    apply (IH (S call) j c); try done.
    + rewrite length_app. unfold stored. by rewrite decide_True, H0.
    + rewrite length_drop. lia.
    + intros i c' Hi Hc'. specialize (Hbefore (S i) c' ltac:(lia) Hc').
      by replace (call + S i)%nat with (S call + i)%nat in Hbefore by lia.
    + by replace (S call + j)%nat with (call + S j)%nat by lia.
    + by replace (S call + j)%nat with (call + S j)%nat by lia.
Qed.

Lemma gathered_replies (transport : nat → nat → list Z) plan (call : nat) :
  (∀ call count, length (transport call count) = count) →
  gathered transport call plan = concat (replies transport call plan).
Proof.
  intros Hlen. unfold gathered, replies. f_equal.
  apply list_fmap_ext. intros i step _. unfold stored.
  by rewrite decide_True.
Qed.

Lemma length_gathered (transport : nat → nat → list Z) plan :
  ∀ call, length (gathered transport call plan) = sum_list plan.*2.
Proof.
  unfold gathered.
  induction plan as [|[ub sz] plan IH]; intros call; [done|].
  cbn [length seq zip zip_with fmap list_fmap concat fst snd].
  rewrite length_app. simpl. f_equal; [|apply IH].
  unfold stored. case_decide; [done|by rewrite length_replicate].
Qed.

(** The buffer after the loop, for a bus whose replies can be stored. *)
Lemma gather_ok (transport : nat → nat → list Z) (read_length max_burst : nat) :
  (0 < max_burst)%nat →
  (∀ call count,
     length (transport call count) = count
     ∨ length (transport call count) = 1%nat) →
  ∃ plan,
    chunks read_length max_burst = inr plan
    ∧ gather transport read_length max_burst
      = inr (gathered transport 0 plan)
    ∧ length (gathered transport 0 plan) = read_length.
Proof.
  intros Hmax Hok.
  destruct (chunks_facts read_length max_burst Hmax)
    as (plan & Hplan & _ & _ & Htiles & Hsum & _).
  exists plan. split; [done|]. split.
  - rewrite (gather_fill _ _ _ _ Hplan).
    rewrite <- (app_nil_l (replicate read_length 0)).
    rewrite gather_loop;
      [|done|rewrite length_replicate; lia|intros i c _; apply Hok].
    rewrite drop_ge by (rewrite length_replicate; lia).
    by rewrite app_nil_l, app_nil_r.
  - by rewrite length_gathered.
Qed.

(** X5. When the bus answers every burst read with as many words as asked,
    the buffer that [read_data] decodes is the concatenation of the
    replies in the order of the reads, [read_length] words in all: cutting
    the read into bursts does not change what is decoded. *)
Theorem read_data_bus_concat (transport : nat → nat → list Z)
    (read_length max_burst : nat) (st : Counter) :
  (0 < max_burst)%nat →
  (∀ call count, Forall is_uint32 (transport call count)) →
  (∀ call count, length (transport call count) = count) →
  ∃ plan,
    chunks read_length max_burst = inr plan
    ∧ gather transport read_length max_burst
      = inr (concat (replies transport 0 plan))
    ∧ length (concat (replies transport 0 plan)) = read_length
    ∧ read_data_bus transport read_length max_burst st
      = read_data (concat (replies transport 0 plan)) st.
Proof.
  intros Hmax _ Hlen.
  destruct (gather_ok transport read_length max_burst Hmax)
    as (plan & Hplan & Hgather & Hlength); [by left|].
  rewrite gathered_replies in Hgather, Hlength by done.
  exists plan. repeat split; try done.
  unfold read_data_bus. by rewrite Hgather.
Qed.

(** A bus that counts up through the words it hands out, ten words read in
    bursts of four. *)
Lemma read_data_bus_concat_witness :
  let transport := λ call count : nat,
    (λ i : nat, Z.of_nat ((4 * call + i) `mod` 256)) <$> seq 0 count in
  ∃ plan,
    chunks 10 4 = inr plan
    ∧ gather transport 10 4 = inr (concat (replies transport 0 plan))
    ∧ length (concat (replies transport 0 plan)) = 10%nat
    ∧ read_data_bus transport 10 4 (fresh 5 8 64 2)
      = read_data (concat (replies transport 0 plan)) (fresh 5 8 64 2).
Proof.
  apply (read_data_bus_concat
           (λ call count : nat,
              (λ i : nat, Z.of_nat ((4 * call + i) `mod` 256)) <$> seq 0 count)
           10 4 (fresh 5 8 64 2)).
  - lia.
  - intros call count. apply Forall_forall.
    intros w (i & -> & _)%list_elem_of_fmap.
    pose proof (Nat.mod_upper_bound (4 * call + i) 256 ltac:(lia)).
    unfold is_uint32. lia.
  - intros call count. by rewrite length_fmap, length_seq.
Defined.

(** X6. A reply of the wrong length is refused: when the replies before it
    had the length asked for and it has neither that length nor a single
    word, [read_data] raises [ValueError] before it decodes anything and
    leaves the counter as it was. *)
Theorem read_data_bus_refused (transport : nat → nat → list Z)
    (read_length max_burst : nat) (st : Counter) plan (j : nat)
    (c : nat * nat) :
  (0 < max_burst)%nat →
  (∀ call count, Forall is_uint32 (transport call count)) →
  chunks read_length max_burst = inr plan →
  plan !! j = Some c →
  (∀ i c', (i < j)%nat → plan !! i = Some c' →
     length (transport i c'.2) = c'.2) →
  length (transport j c.2) ≠ c.2 →
  length (transport j c.2) ≠ 1%nat →
  gather transport read_length max_burst = inl ValueError
  ∧ read_data_bus transport read_length max_burst st = Raised ValueError st.
Proof.
  intros Hmax _ Hplan Hj Hbefore Hne Hone.
  destruct (chunks_facts read_length max_burst Hmax)
    as (plan' & Hplan' & _ & _ & Htiles & Hsum & _).
  rewrite Hplan in Hplan'. injection Hplan' as <-.
  assert (gather transport read_length max_burst = inl ValueError) as Hgather.
  { rewrite (gather_fill _ _ _ _ Hplan).
    rewrite <- (app_nil_l (replicate read_length 0)).
    apply (gather_loop_refused transport plan 0 j c); try done.
    rewrite length_replicate. lia. }
  split; [done|]. unfold read_data_bus. by rewrite Hgather.
Qed.

(** The second of three bursts comes back two words short. *)
Lemma read_data_bus_refused_witness :
  let transport := λ call count : nat,
    if decide (call = 1%nat) then [7; 7] else replicate count 7 in
  gather transport 10 4 = inl ValueError
  ∧ read_data_bus transport 10 4 (fresh 5 8 64 2)
    = Raised ValueError (fresh 5 8 64 2).
Proof.
  apply (read_data_bus_refused
           (λ call count : nat,
              if decide (call = 1%nat) then [7; 7] else replicate count 7)
           10 4 (fresh 5 8 64 2) [(0, 4); (4, 4); (8, 2)]%nat 1 (4, 4)%nat).
  - lia.
  - intros call count. case_decide.
    + repeat constructor; unfold is_uint32; lia.
    + apply Forall_replicate. unfold is_uint32. lia.
  - reflexivity.
  - reflexivity.
  - intros i c' Hi Hc'. destruct i as [|i]; [|lia].
    injection Hc' as <-. reflexivity.
  - simpl. lia.
  - simpl. lia.
Defined.

(** X7. A reply of a single word is not refused: NumPy repeats it over the
    whole chunk. When every reply has the length asked for or a single
    word, [read_data] decodes the buffer in which each chunk holds its
    reply, or its reply's word repeated. *)
Theorem read_data_bus_repeats (transport : nat → nat → list Z)
    (read_length max_burst : nat) (st : Counter) :
  (0 < max_burst)%nat →
  (∀ call count, Forall is_uint32 (transport call count)) →
  (∀ call count,
     length (transport call count) = count
     ∨ length (transport call count) = 1%nat) →
  ∃ plan,
    chunks read_length max_burst = inr plan
    ∧ gather transport read_length max_burst = inr (gathered transport 0 plan)
    ∧ length (gathered transport 0 plan) = read_length
    ∧ read_data_bus transport read_length max_burst st
      = read_data (gathered transport 0 plan) st.
Proof.
  intros Hmax _ Hok.
  destruct (gather_ok transport read_length max_burst Hmax Hok)
    as (plan & Hplan & Hgather & Hlength).
  exists plan. repeat split; try done.
  unfold read_data_bus. by rewrite Hgather.
Qed.

(** A bus that answers every read with the one word [0x80000005]. *)
Lemma read_data_bus_repeats_witness :
  let transport := λ call count : nat, [0x80000005] in
  ∃ plan,
    chunks 6 4 = inr plan
    ∧ gather transport 6 4 = inr (gathered transport 0 plan)
    ∧ length (gathered transport 0 plan) = 6%nat
    ∧ read_data_bus transport 6 4 (fresh 5 8 64 2)
      = read_data (gathered transport 0 plan) (fresh 5 8 64 2).
Proof.
  apply (read_data_bus_repeats (λ call count : nat, [0x80000005]) 6 4
           (fresh 5 8 64 2)).
  - lia.
  - intros call count. repeat constructor; unfold is_uint32; lia.
  - intros call count. by right.
Defined.

Example repeats_example :
  gather (λ call count : nat, [0x80000005]) 6 4
  = inr (replicate 6 0x80000005).
Proof. reflexivity. Qed.
End burst_facts.

(** ** The content of the rolling matrix *)

Section matrix_facts.
Implicit Types (st : Counter) (ws a : list scalar) (K c rows cap : nat).

Lemma nth_take_lt {A} (l : list A) (n i : nat) (d : A) :
  (i < n)%nat → nth i (take n l) d = nth i l d.
Proof. intros Hi. by rewrite !nth_lookup, lookup_take_lt. Qed.

Lemma nth_drop_add {A} (l : list A) (n i : nat) (d : A) :
  nth i (drop n l) d = nth (n + i) l d.
Proof. by rewrite !nth_lookup, lookup_drop. Qed.

Lemma length_channel_column K c rows ws :
  length (channel_column K c rows ws) = rows.
Proof. unfold channel_column. by rewrite length_fmap, length_seq. Qed.

(** The transposed rows are the channel columns. *)
Lemma transpose_columns K a rows :
  np_transpose K (rows_of a rows K)
  = (λ c, channel_column K c rows a) <$> seq 0 K.
Proof.
  unfold np_transpose, rows_of, channel_column.
  apply list_fmap_ext. intros i c [-> Hc]%lookup_seq. simpl.
  change (map ?f (map ?g ?l)) with (f <$> (g <$> l)).
  rewrite <- list_fmap_compose. apply list_fmap_ext. intros j r _. simpl.
  by rewrite nth_take_lt, nth_drop_add.
Qed.

Lemma channel_column_take K c rows ws :
  (c < K)%nat →
  channel_column K c rows (take (rows * K) ws) = channel_column K c rows ws.
Proof.
  intros Hc. unfold channel_column.
  apply list_fmap_ext. intros j r [-> Hr]%lookup_seq. simpl.
  apply nth_take_lt. nia.
Qed.

Lemma channel_column_drop K c (j n : nat) a :
  channel_column K c n (drop (j * K) a)
  = drop j (channel_column K c (j + n) a).
Proof.
  unfold channel_column. rewrite <- fmap_drop, drop_seq.
  replace (j + n - j)%nat with n by lia.
  replace (seq (0 + j) n) with (Nat.add j <$> seq 0 n)
    by (rewrite fmap_add_seq; f_equal; lia).
  rewrite <- list_fmap_compose.
  apply list_fmap_ext. intros i r _. simpl.
  rewrite nth_drop_add. f_equal. lia.
Qed.

Lemma channel_column_app K c (r1 r2 : nat) a b :
  (c < K)%nat → length a = (r1 * K)%nat →
  channel_column K c (r1 + r2) (a ++ b)
  = channel_column K c r1 a ++ channel_column K c r2 b.
Proof.
  intros Hc Ha. unfold channel_column.
  rewrite seq_app, fmap_app. f_equal.
  - apply list_fmap_ext. intros i r [-> Hr]%lookup_seq. simpl.
    rewrite !nth_lookup, lookup_app_l; [done|nia].
  - replace (seq (0 + r1) r2) with (Nat.add r1 <$> seq 0 r2)
      by (rewrite fmap_add_seq; f_equal; lia).
    rewrite <- list_fmap_compose.
    apply list_fmap_ext. intros i r _. simpl.
    rewrite !nth_lookup, lookup_app_r by nia. do 2 f_equal. nia.
Qed.

Lemma zip_with_app_imap (g : list scalar → list scalar)
    (col : nat → list scalar) (d : list (list scalar)) : ∀ j : nat,
  zip_with app (g <$> d) (col <$> seq j (length d))
  = imap (λ c old, g old ++ col (j + c)%nat) d.
Proof.
  induction d as [|x d IH]; intros j; [done|].
  cbn [length seq fmap list_fmap zip_with imap]. simpl.
  rewrite Nat.add_0_r. f_equal.
  rewrite IH. apply imap_ext. intros i y _. simpl. f_equal. f_equal. lia.
Qed.

Lemma zip_with_app_columns (g : list scalar → list scalar)
    (col : nat → list scalar) (d : list (list scalar)) (n : nat) :
  length d = n →
  zip_with app (g <$> d) (col <$> seq 0 n) = imap (λ c old, g old ++ col c) d.
Proof. intros <-. by rewrite zip_with_app_imap. Qed.

Lemma last_n_app_fit {A} (old col : list A) (cap : nat) :
  length old = cap →
  last_n cap (old ++ col) = drop (length col) (old ++ col).
Proof. intros <-. unfold last_n. rewrite length_app. f_equal. lia. Qed.

Lemma last_n_last_n {A} (x y : list A) (n : nat) :
  last_n n (last_n n x ++ y) = last_n n (x ++ y).
Proof.
  unfold last_n. rewrite !length_app, length_drop.
  destruct (decide (length x ≤ n)%nat) as [Hle|Hgt].
  - replace (length x - n)%nat with 0%nat by lia. rewrite drop_0.
    f_equal. lia.
  - rewrite !drop_app, drop_drop, length_drop. f_equal; f_equal; lia.
Qed.

Lemma imap_imap {A B C} (f : nat → A → B) (g : nat → B → C) (l : list A) :
  imap g (imap f l) = imap (λ i x, g i (f i x)) l.
Proof.
  apply list_eq. intros i. rewrite !list_lookup_imap.
  by destruct (l !! i).
Qed.

(** The matrix that a returning call leaves: each channel keeps the last
    [capture_size] of its old samples followed by its samples of the
    call. *)
Lemma store_rows_rows ws st :
  let K := number_of_desired_channels st in
  let cap := capture_size st in
  let rows := (length ws / K)%nat in
  let m := imap (λ c old, last_n cap (old ++ channel_column K c rows ws))
             (data_array st) in
  has_shape st → (0 < K)%nat → (0 < cap)%nat →
  store_rows ws st
  = Returned (set_data_array m
                (set_remaining_counters_array (drop (rows * K) ws) st)) m.
Proof.
  intros K cap rows m [Hlen Hrows] HK Hcap.
  assert (∀ c old, data_array st !! c = Some old →
            (c < K)%nat ∧ length old = cap) as Hrow.
  { intros c old Hc. split.
    - subst K. rewrite <- Hlen. by eapply lookup_lt_Some.
    - by eapply Forall_lookup in Hrows. }
  destruct (decide (rows ≤ cap)%nat) as [Hfit|Hover].
  - rewrite store_rows_fits by done. fold K rows.
    assert (zip_with app (map (drop rows) (data_array st))
              (np_transpose K (rows_of (take (rows * K) ws) rows K)) = m)
      as ->; [|done].
    rewrite transpose_columns. change (map ?f ?l) with (f <$> l).
    rewrite (zip_with_app_columns _ _ _ K) by done. apply imap_ext.
    intros c old [Hc Hold]%Hrow. simpl.
    rewrite channel_column_take by done.
    rewrite last_n_app_fit, length_channel_column by done.
    by rewrite drop_app_le by (rewrite Hold; exact Hfit).
  - rewrite store_rows_overflow by (done || (unfold rows, cap, K in *; lia)).
    fold K rows cap.
    assert (zip_with app (map (drop cap) (data_array st))
              (np_transpose K
                 (rows_of (drop ((rows - cap) * K) (take (rows * K) ws)) cap K))
            = m) as ->; [|done].
    rewrite transpose_columns. change (map ?f ?l) with (f <$> l).
    rewrite (zip_with_app_columns _ _ _ K) by done. apply imap_ext.
    intros c old [Hc Hold]%Hrow. simpl.
    rewrite channel_column_drop.
    replace (rows - cap + cap)%nat with rows
      by (unfold rows, cap, K in *; lia).
    rewrite channel_column_take by done.
    rewrite last_n_app_fit, length_channel_column by done.
    clearbody rows cap K.
    rewrite drop_app_ge by lia. rewrite drop_ge by lia.
    simpl. f_equal. lia.
Qed.

Lemma expand_burst_app ws (b1 b2 : list Z) :
  expand_burst ws (b1 ++ b2)
  = expand_burst ws b1 ++ flat_map expand_word (filter (λ w, w ≠ 0) b2).
Proof.
  rewrite !expand_burst_reference. unfold reference_expansion.
  by rewrite filter_app, flat_map_app, app_assoc.
Qed.
End matrix_facts.

(** X8. Channel demultiplexing. On a counter with at least one desired
    channel and one column, [read_data] returns, and the row of channel [c]
    becomes the last [capture_size] entries of its old row followed by
    the scalars at positions [c], [K + c], [2 K + c], ... of the working
    sequence (pending tail, then the expansion of the burst), one per
    completed row. *)
Theorem read_data_channels (st : Counter) (burst : list Z) :
  Forall is_uint32 burst →
  has_shape st →
  (0 < number_of_desired_channels st)%nat →
  (0 < capture_size st)%nat →
  let K := number_of_desired_channels st in
  let ws := expand_burst (remaining_counters_array st) burst in
  let rows := completed_rows burst st in
  ∃ st',
    read_data burst st = Returned st' (data_array st')
    ∧ length (data_array st') = K
    ∧ remaining_counters_array st' = drop (rows * K) ws
    ∧ ∀ c old,
        data_array st !! c = Some old →
        data_array st' !! c
        = Some (last_n (capture_size st) (old ++ channel_column K c rows ws)).
Proof.
  intros _ Hshape HK Hcap K ws rows. unfold read_data.
  rewrite store_rows_rows by done.
  eexists (set_data_array _ (set_remaining_counters_array _ st)).
  split; [reflexivity|]. simpl. split; [|split; [done|]].
  - rewrite length_imap. apply Hshape.
  - intros c old Hc. by rewrite list_lookup_imap, Hc.
Qed.

(** Two channels, four counts: the demultiplexing example of the
    specification. *)
Lemma read_data_channels_witness :
  let st := fresh 3 8 64 2 in
  let burst := [0x80000001; 0x80000002; 0x80000003; 0x80000004] in
  ∃ st',
    read_data burst st = Returned st' (data_array st')
    ∧ length (data_array st') = 2%nat
    ∧ remaining_counters_array st'
      = drop (completed_rows burst st * 2) (expand_burst [] burst)
    ∧ ∀ c old,
        data_array st !! c = Some old →
        data_array st' !! c
        = Some (last_n 3 (old ++ channel_column 2 c (completed_rows burst st)
                                   (expand_burst [] burst))).
Proof.
  apply (read_data_channels (fresh 3 8 64 2)
           [0x80000001; 0x80000002; 0x80000003; 0x80000004]).
  - repeat constructor; unfold is_uint32; lia.
  - split; [reflexivity|]. repeat constructor.
  - simpl. lia.
  - simpl. lia.
Defined.

(** X9. The decoder does not depend on how the word stream is cut into
    calls: on a counter with at least one desired channel and one column,
    decoding a burst and then another leaves the counter in the state, and
    returns the matrix, that decoding the two bursts as one does. *)
Theorem read_data_split_calls (st : Counter) (burst1 burst2 : list Z) :
  Forall is_uint32 (burst1 ++ burst2) →
  has_shape st →
  (0 < number_of_desired_channels st)%nat →
  (0 < capture_size st)%nat →
  ∃ st1 st2,
    read_data burst1 st = Returned st1 (data_array st1)
    ∧ read_data burst2 st1 = Returned st2 (data_array st2)
    ∧ read_data (burst1 ++ burst2) st = Returned st2 (data_array st2).
Proof.
  intros _ Hshape HK Hcap.
  set (K := number_of_desired_channels st) in *.
  set (cap := capture_size st) in *.
  set (ws1 := expand_burst (remaining_counters_array st) burst1).
  set (e2 := flat_map expand_word (filter (λ w, w ≠ 0) burst2)).
  set (r1 := (length ws1 / K)%nat).
  set (ws2 := drop (r1 * K) ws1 ++ e2).
  set (r2 := (length ws2 / K)%nat).
  pose proof (store_rows_rows ws1 st Hshape HK Hcap) as H1.
  cbv zeta in H1. fold K cap r1 in H1.
  set (m1 := imap (λ c old, last_n cap (old ++ channel_column K c r1 ws1))
               (data_array st)) in *.
  set (st1 := set_data_array m1
                (set_remaining_counters_array (drop (r1 * K) ws1) st)) in *.
  assert (has_shape st1) as Hshape1.
  { pose proof (store_rows_shape ws1 st Hshape) as Hs. by rewrite H1 in Hs. }
  assert (expand_burst (remaining_counters_array st1) burst2 = ws2) as Hws2.
  { subst st1 ws2 e2. simpl. rewrite expand_burst_reference. done. }
  pose proof (store_rows_rows ws2 st1 Hshape1 HK Hcap) as H2.
  cbv zeta in H2.
  change (number_of_desired_channels st1) with K in H2.
  change (capture_size st1) with cap in H2.
  change (data_array st1) with m1 in H2. fold r2 in H2.
  assert (length (take (r1 * K) ws1) = (r1 * K)%nat) as Hlen1
    by apply length_consumed.
  assert (expand_burst (remaining_counters_array st) (burst1 ++ burst2)
          = take (r1 * K) ws1 ++ ws2) as Hws.
  { rewrite expand_burst_app. fold ws1 e2. subst ws2.
    by rewrite app_assoc, take_drop. }
  assert ((length (take (r1 * K) ws1 ++ ws2) / K)%nat = (r1 + r2)%nat) as Hrows.
  { rewrite length_app, Hlen1. by rewrite Nat.div_add_l by lia. }
  pose proof (store_rows_rows (take (r1 * K) ws1 ++ ws2) st Hshape HK Hcap)
    as H12.
  cbv zeta in H12. fold K cap in H12. rewrite Hrows in H12.
  exists st1, (set_data_array
                 (imap (λ c old, last_n cap (old ++ channel_column K c r2 ws2)) m1)
                 (set_remaining_counters_array (drop (r2 * K) ws2) st1)).
  split; [exact H1|]. split.
  { unfold read_data. rewrite Hws2. exact H2. }
  unfold read_data. rewrite Hws, H12.
  assert (drop ((r1 + r2) * K) (take (r1 * K) ws1 ++ ws2) = drop (r2 * K) ws2)
    as ->.
  { rewrite drop_app_ge by lia. f_equal. lia. }
  assert (imap (λ c old,
                  last_n cap (old ++ channel_column K c (r1 + r2)
                                       (take (r1 * K) ws1 ++ ws2)))
            (data_array st)
          = imap (λ c old, last_n cap (old ++ channel_column K c r2 ws2)) m1)
    as ->; [|done].
  subst m1. rewrite imap_imap. apply imap_ext. intros c old Hc.
  assert (c < K)%nat as HcK.
  { destruct Hshape as [Hl _]. subst K. rewrite <- Hl.
    by eapply lookup_lt_Some. }
  rewrite channel_column_app, channel_column_take by done.
  by rewrite last_n_last_n, app_assoc.
Qed.

(** The carry-over scenario as one call and as two. *)
Lemma read_data_split_calls_witness :
  ∃ st1 st2,
    read_data carry_burst1 (fresh 5 8 64 3) = Returned st1 (data_array st1)
    ∧ read_data carry_burst2 st1 = Returned st2 (data_array st2)
    ∧ read_data (carry_burst1 ++ carry_burst2) (fresh 5 8 64 3)
      = Returned st2 (data_array st2).
Proof.
  apply (read_data_split_calls (fresh 5 8 64 3) carry_burst1 carry_burst2).
  - repeat constructor; unfold is_uint32; lia.
  - split; [reflexivity|]. repeat constructor.
  - simpl. lia.
  - simpl. lia.
Defined.

(** ** The counter across calls *)

(** X10. Whatever methods are called on a counter, with whatever arguments
    and whether they return or raise, its matrix has one row per desired
    channel and [capture_size] columns, and while a channel is desired its
    pending tail holds fewer scalars than there are desired channels. *)
Theorem counter_invariant (st : Counter) :
  reachable st →
  has_shape st
  ∧ ((0 < number_of_desired_channels st)%nat →
     (length (remaining_counters_array st)
      < number_of_desired_channels st)%nat).
Proof.
  intros Hst. split; [by apply reachable_has_shape|by apply reachable_pending].
Qed.

(** A counter that was opened, configured for two channels, armed and read
    from. *)
Lemma counter_invariant_witness :
  ∃ st,
    init 0x80006500 4 0x636e7472 8 64 = inr st
    ∧ let st' := state_after
                   (read_data [0x80000001; 0x00000002; 0x80000003]
                      (start_measurement
                         (state_after
                            (set_lut_channels
                               (Some [(0, VInt 1); (1, VInt 2)]) st)))) in
      has_shape st'
      ∧ ((0 < number_of_desired_channels st')%nat →
         (length (remaining_counters_array st')
          < number_of_desired_channels st')%nat).
Proof.
  eexists. split; [reflexivity|].
  apply counter_invariant.
  apply reach_read; [repeat constructor; lia|].
  apply reach_start, reach_set_lut.
  apply (reach_init 0x80006500 4 0x636e7472 8 64). reflexivity.
Defined.

(** X16. The empty dictionary is accepted: it configures zero desired
    channels and a table that discards every slot. From then on every
    [read_data] raises [ZeroDivisionError] and leaves the counter as it
    is. *)
Theorem empty_dict_then_read (st : Counter) (burst : list Z) :
  let lut := replicate (lut_channels_depth st) (number_of_channels st) in
  set_lut_channels (Some []) st = Returned (configured st lut 0) tt
  ∧ read_data burst (configured st lut 0)
    = Raised ZeroDivisionError (configured st lut 0).
Proof. split; [by apply set_lut_channels_inr|reflexivity]. Qed.

(** ** More on the channel look-up table *)

Section lut_theorems.
Implicit Types (lut : list Z) (m : channel_dict).

Lemma acceptable_Permutation (noc : Z) (depth : nat) m1 m2 :
  m1 ≡ₚ m2 → acceptable noc depth m1 → acceptable noc depth m2.
Proof.
  intros Hperm [Hdense Hitems Hrange Hnd].
  assert (slots m1 ≡ₚ slots m2) as Hslots.
  { unfold slots, writes. by rewrite Hperm. }
  split.
  - rewrite <- Hperm. by rewrite <- (Permutation_length Hperm).
  - by rewrite <- Hperm.
  - by rewrite <- Hslots.
  - by rewrite <- Hslots.
Qed.

(** X11. The table does not depend on the order of the dictionary: when
    the build returns on a dictionary, it returns the same table and the
    same channel count on every reordering of its items. *)
Theorem assign_channel_indices_order (noc : Z) (depth : nat) m1 m2 lut
    (n : nat) :
  m1 ≡ₚ m2 →
  _assign_channel_indices noc depth m1 = inr (lut, n) →
  _assign_channel_indices noc depth m2 = inr (lut, n).
Proof.
  intros Hperm Hrun1.
  pose proof (assign_sound _ _ _ _ _ Hrun1)
    as (Hacc & -> & Hlen1 & Hset1 & Hkeep1).
  destruct (assign_complete noc depth m2) as [lut2 Hrun2];
    [by eapply acceptable_Permutation|].
  pose proof (assign_sound _ _ _ _ _ Hrun2) as (_ & _ & Hlen2 & Hset2 & Hkeep2).
  rewrite Hrun2, (Permutation_length Hperm). do 2 f_equal.
  assert (writes m1 ≡ₚ writes m2) as Hwrites.
  { unfold writes. by rewrite Hperm. }
  apply list_eq. intros i.
  destruct (decide (i < depth)%nat) as [Hi|Hi]; cycle 1.
  { by rewrite !lookup_ge_None_2 by lia. }
  destruct (decide (i ∈ slots m1)) as [Hin|Hout].
  - apply list_elem_of_fmap in Hin as (w & -> & Hw).
    rewrite (Hset1 w Hw). apply Hset2. by rewrite <- Hwrites.
  - rewrite Hkeep1 by done. apply Hkeep2; [done|].
    intros Hin. apply Hout. unfold slots in *. by rewrite Hwrites.
Qed.

Lemma assign_channel_indices_order_witness :
  _assign_channel_indices 8 64 [(1, VList [2; 3]); (2, VInt (-5)); (0, VInt 1)]
  = inr (<[1%nat:=0]> (<[59%nat:=2]> (<[3%nat:=1]> (<[2%nat:=1]>
           (replicate 64 8)))), 3%nat).
Proof.
  apply (assign_channel_indices_order 8 64
           [(0, VInt 1); (1, VList [2; 3]); (2, VInt (-5))]).
  - by rewrite (Permutation_cons_append _ (0, VInt 1)).
  - reflexivity.
Defined.

(** X12. A table has room for what a returning build puts in it: the
    count of desired channels is at most the count of physical channels,
    and the values of the dictionary are at most 64 and at most as many as
    the table has slots. *)
Theorem assign_channel_indices_sizes (noc : Z) (depth : nat) m lut (n : nat) :
  NoDup m.*1 →
  _assign_channel_indices noc depth m = inr (lut, n) →
  (n ≤ Z.to_nat noc)%nat
  ∧ (length (slots m) ≤ depth)%nat
  ∧ (length (slots m) ≤ 64)%nat.
Proof.
  intros Hkeys Hrun.
  pose proof (assign_sound _ _ _ _ _ Hrun)
    as ([_ Hitems Hrange Hnd] & -> & _).
  split; [|split].
  - rewrite <- (length_fmap fst m), <- (length_seqZ 0 noc).
    apply submseteq_length, NoDup_submseteq; [done|].
    intros key (item & -> & Hitem)%list_elem_of_fmap.
    rewrite Forall_forall in Hitems. destruct (Hitems _ Hitem) as [? _].
    apply elem_of_seqZ. lia.
  - rewrite <- (length_seq depth 0).
    apply submseteq_length, NoDup_submseteq; [done|].
    intros i Hi. rewrite Forall_forall in Hrange. apply elem_of_seq.
    specialize (Hrange _ Hi). lia.
  - rewrite <- (length_seq 64 0).
    apply submseteq_length, NoDup_submseteq; [done|].
    intros i (w & -> & _)%list_elem_of_fmap. apply elem_of_seq.
    pose proof (slot_of_lt w.2). lia.
Qed.

Lemma assign_channel_indices_sizes_witness :
  let m := [(0, VInt 1); (1, VList [2; 3]); (2, VList [-4; 4])] in
  (3 ≤ Z.to_nat 8)%nat
  ∧ (length (slots m) ≤ 64)%nat
  ∧ (length (slots m) ≤ 64)%nat.
Proof.
  eapply (assign_channel_indices_sizes 8 64
            [(0, VInt 1); (1, VList [2; 3]); (2, VList [-4; 4])] _ 3).
  - apply (bool_decide_unpack _). vm_compute. exact I.
  - reflexivity.
Defined.

(** X13. On a dictionary whose values are ints, lists of ints or objects
    of another type, each of the three exceptions that the build raises
    names a defect of the dictionary. [ValueError] only if a key is outside
    [[0, len)] or a value is neither an [int] nor a [list].
    [AssertionError] only if a key is outside [[0, number_of_channels)] or
    two values share a slot. [IndexError] only if the slot of a value is
    past the end of the table. [ZeroDivisionError], which [read_data] can
    raise, does not come from the build. A list element that is not an
    [int] is outside [channel_value]: on it [val & 0b111111] raises
    [TypeError], about which the statement says nothing. *)
Theorem assign_channel_indices_errors (noc : Z) (depth : nat) m (e : exn) :
  _assign_channel_indices noc depth m = inl e →
  match e with
  | ValueError =>
      (∃ item, item ∈ m ∧ ¬ (0 ≤ item.1 < Z.of_nat (length m)))
      ∨ (∃ item, item ∈ m ∧ item.2 = VOther)
  | AssertionError =>
      (∃ item, item ∈ m ∧ ¬ (0 ≤ item.1 < noc)) ∨ ¬ NoDup (slots m)
  | IndexError => ∃ w, w ∈ writes m ∧ (depth ≤ slot_of w.2)%nat
  | ZeroDivisionError => False
  end.
Proof.
  unfold _assign_channel_indices.
  destruct (forallb _ m) eqn:Hkeys.
  - pose proof (items_run noc depth m (replicate depth noc) [])
      as Hrun.
    destruct (for_each (process_item noc) (replicate depth noc) m)
      as [e'|rl]; [|done].
    intros [= <-]. simpl in Hrun.
    assert (match e' with
            | ValueError => ∃ item, item ∈ m ∧ item.2 = VOther
            | AssertionError =>
                (∃ item, item ∈ m ∧ ¬ (0 ≤ item.1 < noc)) ∨ ¬ NoDup (slots m)
            | IndexError => ∃ w, w ∈ writes m ∧ (depth ≤ slot_of w.2)%nat
            | ZeroDivisionError => False
            end) as He.
    { apply Hrun; [apply length_replicate|].
      intros i x [-> _]%lookup_replicate. done. }
    destruct e'; try done. by right.
  - intros [= <-]. left.
    assert (¬ Forall (λ item : Z * channel_value,
                        0 ≤ item.1 < Z.of_nat (length m)) m) as Hnot.
    { intros Hall%forallb_keys. congruence. }
    apply not_Forall_Exists in Hnot; [|apply _].
    apply Exists_exists in Hnot as (item & Hitem & Hkey). eauto.
Qed.

Lemma assign_channel_indices_errors_witness :
  (∃ item, item ∈ [(0, VInt 70); (1, VInt 6)] ∧ ¬ (0 ≤ item.1 < 8))
  ∨ ¬ NoDup (slots [(0, VInt 70); (1, VInt 6)]).
Proof.
  apply (assign_channel_indices_errors 8 64 [(0, VInt 70); (1, VInt 6)]
           AssertionError).
  reflexivity.
Defined.

(** X15. The build sees a physical value only through its remainder
    modulo 64, also when it is negative: the slot of a value is that
    remainder, and reducing every value of a dictionary modulo 64 changes
    neither the table nor the exception that the build ends with. *)
Theorem assign_channel_indices_mod64 (noc : Z) (depth : nat) m :
  (∀ val, Z.of_nat (slot_of val) = val mod 64)
  ∧ _assign_channel_indices noc depth (reduce_values m)
    = _assign_channel_indices noc depth m.
Proof. split; [apply slot_of_mod|apply assign_reduce]. Qed.
End lut_theorems.

(** ** More on the table decoder *)

Lemma positions_sorted (k : Z) (l : list Z) :
  ∀ index : nat, StronglySorted lt (positions k index l).
Proof.
  induction l as [|x l IH]; intros index; simpl; [constructor|].
  destruct (decide (x = k)); [|done].
  constructor; [done|]. apply Forall_forall.
  intros i [Hi _]%elem_of_positions. lia.
Qed.

(** X14. Whatever words the table read-back returns, [get_lut_channels]
    sorts them into a dictionary with strictly increasing keys, all below
    [number_of_channels]; each key is bound to the non-empty, strictly
    increasing list of exactly the slots that hold it, so every slot with a
    word below [number_of_channels] is listed once, under that word, and
    the other slots nowhere. *)
Theorem get_lut_channels_groups (st : Counter) (read_list : list Z) :
  let d := get_lut_channels st read_list in
  StronglySorted Z.lt d.*1
  ∧ (∀ key ls, (key, ls) ∈ d →
       key < number_of_channels st
       ∧ ls ≠ []
       ∧ StronglySorted lt ls
       ∧ ∀ i, i ∈ ls ↔ read_list !! i = Some key)
  ∧ (∀ i key, read_list !! i = Some key → key < number_of_channels st →
       ∃ ls, (key, ls) ∈ d ∧ i ∈ ls)
  ∧ (∀ key ls1 ls2, (key, ls1) ∈ d → (key, ls2) ∈ d → ls1 = ls2).
Proof.
  intros d. subst d. unfold get_lut_channels.
  split; [apply list_to_dict_sorted|]. split; [|split].
  - intros key ls (Hkey & -> & Hne)%elem_of_list_to_dict.
    split; [done|]. split; [done|]. split; [apply positions_sorted|].
    intros i. apply positions_lookup.
  - intros i key Hi Hkey. exists (positions key 0 read_list).
    assert (i ∈ positions key 0 read_list) as Hin by by apply positions_lookup.
    split; [|done]. apply elem_of_list_to_dict.
    split; [done|]. split; [done|]. intros Hnil. rewrite Hnil in Hin.
    by apply elem_of_nil in Hin.
  - intros key ls1 ls2 (_ & -> & _)%elem_of_list_to_dict
      (_ & -> & _)%elem_of_list_to_dict. done.
Qed.

Section read_back_facts.
Variable noc : Z.
Variable depth : nat.
Implicit Types (lut : list Z) (m : channel_dict).

Lemma NoDup_value_slots m (key : Z) (values : channel_value) :
  NoDup (slots m) → (key, values) ∈ m → NoDup (slot_of <$> values_of values).
Proof.
  intros Hnd (m1 & m2 & ->)%list_elem_of_split.
  unfold slots in Hnd.
  change ((key, values) :: m2) with ([(key, values)] ++ m2) in Hnd.
  rewrite !writes_app, !fmap_app in Hnd.
  apply NoDup_app in Hnd as (_ & _ & Hnd).
  apply NoDup_app in Hnd as (Hnd & _ & _).
  unfold writes in Hnd. simpl in Hnd. rewrite app_nil_r in Hnd.
  by rewrite <- list_fmap_compose in Hnd.
Qed.

(** The slots that hold a key are the slots of the values listed under
    it. *)
Lemma positions_slots m lut (n : nat) (key : Z) (values : channel_value) :
  NoDup m.*1 →
  _assign_channel_indices noc depth m = inr (lut, n) →
  (key, values) ∈ m →
  positions key 0 lut ≡ₚ slot_of <$> values_of values.
Proof.
  intros Hkeys Hrun Hitem.
  pose proof (assign_sound _ _ _ _ _ Hrun)
    as ([_ Hitems _ Hnd] & _ & Hlen & Hset & Hkeep).
  assert (key ≠ noc) as Hkey.
  { rewrite Forall_forall in Hitems.
    destruct (Hitems _ Hitem) as [? _]. simpl in *. lia. }
  apply NoDup_Permutation.
  - apply NoDup_positions.
  - by eapply NoDup_value_slots.
  - intros i. rewrite positions_lookup, list_elem_of_fmap. split.
    + intros Hi.
      destruct (lut_lookup_key _ _ _ _ _ _ _ Hrun Hi Hkey)
        as (values' & val & Hitem' & Hval & <-).
      assert (values' = values) as -> by by eapply dict_value_unique.
      eauto.
    + intros (val & -> & Hval).
      apply (Hset (key, val)), elem_of_writes. eauto.
Qed.
End read_back_facts.

(** X17. Reading back the table of any accepted dictionary, whatever the
    sign or size of its values: the decoded dictionary binds exactly the
    keys that list at least one value, each to the slots [val & 0x3F] of
    its values, in increasing order. So the example of the source,
    [{0: 1, 1: [2, 3], 2: [-4, 4]}], reads back as
    [{0: [1], 1: [2, 3], 2: [4, 60]}]. *)
Theorem get_lut_channels_slots (st : Counter) (m : channel_dict)
    (lut : list Z) (n : nat) :
  NoDup m.*1 →
  set_lut_channels (Some m) st = Returned (configured st lut n) tt →
  let d := get_lut_channels (configured st lut n) lut in
  (∀ key values, (key, values) ∈ m → values_of values ≠ [] →
     ∃ ls, (key, ls) ∈ d
           ∧ StronglySorted lt ls
           ∧ ls ≡ₚ slot_of <$> values_of values)
  ∧ (∀ key ls, (key, ls) ∈ d →
       ∃ values, (key, values) ∈ m
                 ∧ values_of values ≠ []
                 ∧ ls ≡ₚ slot_of <$> values_of values).
Proof.
  intros Hkeys Hset d. subst d. unfold get_lut_channels. simpl.
  assert (_assign_channel_indices (number_of_channels st)
            (lut_channels_depth st) m = inr (lut, n)) as Hrun.
  { destruct (_assign_channel_indices _ _ m) as [e|[lut' n']] eqn:Hrun.
    { by rewrite (set_lut_channels_inl _ _ _ Hrun) in Hset. }
    rewrite (set_lut_channels_inr _ _ _ _ Hrun) in Hset.
    unfold configured in Hset. injection Hset as Hn _ Hlog.
    apply app_inv_head in Hlog. injection Hlog as _ Hlut. by subst. }
  pose proof (assign_sound _ _ _ _ _ Hrun) as ([_ Hitems _ _] & _).
  split.
  - intros key values Hitem Hne.
    pose proof (positions_slots _ _ _ _ _ _ _ Hkeys Hrun Hitem) as Hperm.
    exists (positions key 0 lut).
    split; [|split; [apply positions_sorted|done]].
    apply elem_of_list_to_dict. split; [|split; [done|]].
    + rewrite Forall_forall in Hitems. by destruct (Hitems _ Hitem) as [[_ ?] _].
    + intros Hnil. rewrite Hnil in Hperm.
      apply Permutation_nil in Hperm. by apply fmap_nil_inv in Hperm.
  - intros key ls (Hkey & -> & Hne)%elem_of_list_to_dict.
    destruct (positions key 0 lut) as [|i ps] eqn:Hps; [done|].
    assert (lut !! i = Some key) as Hi.
    { apply positions_lookup. rewrite Hps. apply list_elem_of_here. }
    destruct (lut_lookup_key _ _ _ _ _ _ _ Hrun Hi ltac:(lia))
      as (values & val & Hitem & Hval & _).
    exists values. split; [done|]. split.
    + intros Hnil. rewrite Hnil in Hval. by apply elem_of_nil in Hval.
    + rewrite <- Hps. by eapply positions_slots.
Qed.

(** The dictionary in the comment above [set_lut_channels]. *)
Lemma get_lut_channels_slots_witness :
  let m := [(0, VInt 1); (1, VList [2; 3]); (2, VList [-4; 4])] in
  let lut := <[1%nat:=0]> (<[2%nat:=1]> (<[3%nat:=1]> (<[60%nat:=2]>
               (<[4%nat:=2]> (replicate 64 8))))) in
  let d := get_lut_channels (configured (fresh 10 8 64 1) lut 3) lut in
  (∀ key values, (key, values) ∈ m → values_of values ≠ [] →
     ∃ ls, (key, ls) ∈ d
           ∧ StronglySorted lt ls
           ∧ ls ≡ₚ slot_of <$> values_of values)
  ∧ (∀ key ls, (key, ls) ∈ d →
       ∃ values, (key, values) ∈ m
                 ∧ values_of values ≠ []
                 ∧ ls ≡ₚ slot_of <$> values_of values).
Proof.
  apply (get_lut_channels_slots (fresh 10 8 64 1)
           [(0, VInt 1); (1, VList [2; 3]); (2, VList [-4; 4])]).
  - apply (bool_decide_unpack _). vm_compute. exact I.
  - reflexivity.
Defined.

Example read_back_example :
  get_lut_channels (fresh 10 8 64 1)
    (<[1%nat:=0]> (<[2%nat:=1]> (<[3%nat:=1]> (<[60%nat:=2]>
       (<[4%nat:=2]> (replicate 64 8))))))
  = [(0, [1]%nat); (1, [2; 3]%nat); (2, [4; 60]%nat)].
Proof. reflexivity. Qed.
